(** * sdk_avatars.py: renaming an avatar's root node and viseme shape keys

    A shallow embedding of [scripts/avatars/sdk_avatars.py].  The script runs
    inside the host's Python interpreter and works on the host's scene through
    object references: an object met twice during the traversal, or a mesh
    shared by two objects, is the same mutable thing both times.  The scene is
    therefore a store: objects are referred to by their index in
    [scene.objects], mesh data by a data-block id, and every write goes to the
    store.

    Only names, the parent/child hierarchy and shape keys are modelled.

    The script is embedded twice.  The first embedding takes the script at
    its word: a name assignment stores the string assigned, and the
    operators the script does not guard always succeed.  The second, whose
    definitions end in [_host], adds the rules of the host: a name setter
    keeps names distinct by giving a taken name a numeric suffix,
    [bpy.data.objects] holds more than the scene, and the operators of the
    transform step can raise.  Where no assigned name is taken the two
    assign the same names. *)

From stdpp Require Import gmap strings list fin_maps pretty.
From Stdlib Require Import ZArith Lia.

Open Scope string_scope.
Open Scope Z_scope.

(** ** Data model *)

(** A shape key: its name and everything else it carries (value, vertex
    offsets, ...), which the script never touches. *)
Record ShapeKey := mkShapeKey {
  sk_name : string;
  sk_data : list Z;
}.

(** A scene object: [ob_children] are indices into [scene.objects],
    [ob_data] is the id of the data block behind [x.data] ([None] when the
    object has no data, as an empty has). *)
Record Object := mkObject {
  ob_name : string;
  ob_children : list nat;
  ob_data : option nat;
}.

(** What the host owns: the objects, and for each data block that has
    [shape_keys.key_blocks] the list of its shape keys.  A data block without
    shape keys (or of a kind that has none) is absent from [sc_key_blocks]. *)
Record Scene := mkScene {
  sc_objects : list Object;
  sc_key_blocks : gmap nat (list ShapeKey);
}.

(** The interpreter state of one run: the scene, the globals the script
    assigns ([shapekeyMap], [shape_keys_processed]) and what was printed. *)
Record State := mkState {
  objects : list Object;
  key_blocks : gmap nat (list ShapeKey);
  table : list (string * string);
  shape_keys_processed : nat;
  stdout : list string;
}.

Definition scene_of (st : State) : Scene :=
  mkScene (objects st) (key_blocks st).

Definition with_scene (sc : Scene) (st : State) : State :=
  mkState (sc_objects sc) (sc_key_blocks sc) (table st)
          (shape_keys_processed st) (stdout st).

Definition with_objects (os : list Object) (st : State) : State :=
  mkState os (key_blocks st) (table st) (shape_keys_processed st) (stdout st).

Definition with_key_blocks (kb : gmap nat (list ShapeKey)) (st : State) : State :=
  mkState (objects st) kb (table st) (shape_keys_processed st) (stdout st).

Definition with_table (t : list (string * string)) (st : State) : State :=
  mkState (objects st) (key_blocks st) t (shape_keys_processed st) (stdout st).

Definition with_processed (n : nat) (st : State) : State :=
  mkState (objects st) (key_blocks st) (table st) n (stdout st).

(** [print(line)] *)
Definition print (line : string) (st : State) : State :=
  mkState (objects st) (key_blocks st) (table st) (shape_keys_processed st)
          (stdout st ++ [line]).

Definition set_sk_name (n : string) (k : ShapeKey) : ShapeKey :=
  mkShapeKey n (sk_data k).

Definition set_ob_name (n : string) (o : Object) : Object :=
  mkObject n (ob_children o) (ob_data o).

(** ** Host collections *)

(** [coll.find(key)]: the index of the first element named [key], [-1] when
    there is none. *)
Fixpoint find_from {A} (nm : A → string) (key : string) (l : list A) (i : Z) : Z :=
  match l with
  | [] => -1
  | x :: l' => if decide (nm x = key) then i else find_from nm key l' (i + 1)
  end.

Definition find {A} (nm : A → string) (key : string) (l : list A) : Z :=
  find_from nm key l 0.

(** [list.index(x)]: [None] stands for the [ValueError] Python raises. *)
Fixpoint index (x : string) (l : list string) : option nat :=
  match l with
  | [] => None
  | y :: l' => if decide (y = x) then Some 0%nat else S <$> index x l'
  end.

(** ** The script *)

(** Lines 17-23. *)
Definition shapekeyMap : list (string * string) :=
  [ ("sil", "viseme_sil"); ("PP", "viseme_PP"); ("FF", "viseme_FF");
    ("TH", "viseme_TH"); ("DD", "viseme_DD"); ("kk", "viseme_kk");
    ("CH", "viseme_CH"); ("SS", "viseme_SS"); ("nn", "viseme_nn");
    ("RR", "viseme_RR"); ("aa", "viseme_aa"); ("E", "viseme_E");
    ("ih", "viseme_I"); ("oh", "viseme_O"); ("ou", "viseme_U") ].

(** Lines 26-30, the generator unrolled into the list of what it yields, in
    order.  The recursion follows [children], so it ends only on a hierarchy
    without cycles: [fuel] bounds the depth and [None] means it ran out.  An
    index that names no object has no children. *)
Fixpoint traverse (fuel : nat) (objs : list Object) (x : nat) : option (list nat) :=
  match fuel with
  | O => None
  | S fuel' =>
      match objs !! x with
      | None => Some [x]
      | Some o =>
          sub ← mapM (traverse fuel' objs) (ob_children o);
          Some (x :: concat sub)
      end
  end.

(** Lines 33-34. *)
Definition hasShapekeys (st : State) (x : nat) : bool :=
  match objects st !! x with
  | Some o =>
      match ob_data o with
      | Some d => bool_decide (is_Some (key_blocks st !! d))
      | None => false
      end
  | None => false
  end.

(** Lines 69-73, one turn of [for m in shapekeyMap] on the key blocks of data
    block [d]. *)
Definition rename_entry (d : nat) (st : State) (m : string * string) : State :=
  match key_blocks st !! d with
  | Some keys =>
      let idx := find sk_name m.1 keys in
      if decide (idx ≠ -1) then
        print ("✅ Renamed shape key: " +:+ m.1 +:+ " -> " +:+ m.2)
          (with_processed (S (shape_keys_processed st))
             (with_key_blocks
                (<[d := alter (set_sk_name m.2) (Z.to_nat idx) keys]> (key_blocks st))
                st))
      else st
  | None => st
  end.

(** Lines 66-73, the body of the inner loop for the object [x]. *)
Definition visit (st : State) (x : nat) : State :=
  if hasShapekeys st x then
    match objects st !! x ≫= ob_data with
    | Some d => foldl (rename_entry d) st (table st)
    | None => st
    end
  else st.

(** Lines 64-73.  The loop body writes shape-key names only, so the objects
    iterated over and their children are those of the start. *)
Definition rename_loop (fuel : nat) (st : State) : option State :=
  foldl (λ acc r,
           st' ← acc;
           os ← traverse fuel (objects st') r;
           Some (foldl visit st' os))
        (Some st) (seq 0 (length (objects st))).

(** Lines 49-52. *)
Definition rename_root (st : State) : State :=
  let idx := find ob_name "AvatarRoot" (objects st) in
  if decide (idx ≠ -1) then
    print "✅ Renamed AvatarRoot to Armature"
      (with_objects (alter (set_ob_name "Armature") (Z.to_nat idx) (objects st)) st)
  else st.

(** Lines 55-60, with the operators taken to succeed and to change nothing
    the model carries; [apply_transforms_host] below gives the step with the
    host's rules. *)
Definition apply_transforms (st : State) : State :=
  if bool_decide ("Armature" ∈ ob_name <$> objects st) then
    print "✅ Applied transforms to Armature" st
  else st.

(** Lines 63-75: the counter, the loop and the report. *)
Definition rename_shape_keys (fuel : nat) (st : State) : option State :=
  st' ← rename_loop fuel (with_processed 0 st);
  Some (print ("✅ Processed " +:+ pretty (shape_keys_processed st') +:+ " shape keys") st').

(** Lines 49-75: everything between the import and the export. *)
Definition process (fuel : nat) (st : State) : option State :=
  rename_shape_keys fuel (apply_transforms (rename_root st)).

(** How a run of the script ends. *)
Inductive outcome :=
  | Completed                 (* fell off the end of the file *)
  | SystemExit (code : Z)      (* [sys.exit(code)] *)
  | Uncaught (exc : string).   (* an exception nobody caught *)

(** The two host operators whose failure the script handles: the importer
    (lines 41-46) gives the scene after the import or the exception text, the
    exporter (lines 78-83) the exception text if it fails. *)
Record Host := mkHost {
  import_scene_gltf : string → Scene → string + Scene;
  export_scene_gltf : string → Scene → option string;
}.

(** Lines 37-38, with every object of the scene taken to be selected;
    [bl_clear] below gives what the host leaves. *)
Definition clear_scene (st : State) : State := with_objects [] st.

Definition usage : string :=
  "Usage: blender --background --python sdk_avatars.py -- <input_file.glb>".

(** The whole file.  [sys_argv] is [sys.argv], [st0] the state the host
    starts the script in. *)
Definition main (fuel : nat) (host : Host) (sys_argv : list string) (st0 : State)
  : option (State * outcome) :=
  match index "--" sys_argv with
  | None => Some (st0, Uncaught "ValueError")
  | Some i =>
      let argv := drop (i + 1) sys_argv in
      match argv with
      | [] => Some (print usage st0, SystemExit 1)
      | input_file :: _ =>
          let st1 := print ("🎭 Processing SDK avatar: " +:+ input_file) st0 in
          let st2 := with_table shapekeyMap st1 in
          let st3 := clear_scene st2 in
          match import_scene_gltf host input_file (scene_of st3) with
          | inl e =>
              Some (print ("❌ Failed to import GLB file: " +:+ e) st3, SystemExit 1)
          | inr sc =>
              let st4 := print "✅ Successfully imported GLB file" (with_scene sc st3) in
              st5 ← process fuel st4;
              match export_scene_gltf host input_file (scene_of st5) with
              | Some e =>
                  Some (print ("❌ Failed to export GLB file: " +:+ e) st5, SystemExit 1)
              | None =>
                  Some (print "🎉 SDK avatar adaptation complete!"
                          (print "✅ Successfully exported adapted GLB file" st5),
                        Completed)
              end
          end
      end
  end.

(** ** Notions used to state the properties *)

Definition sources (tbl : list (string * string)) : list string := tbl.*1.
Definition targets (tbl : list (string * string)) : list string := tbl.*2.

(** The target the table gives for a name: that of the first entry with this
    source. *)
Fixpoint target_of (tbl : list (string * string)) (n : string) : option string :=
  match tbl with
  | [] => None
  | m :: tbl' => if decide (m.1 = n) then Some m.2 else target_of tbl' n
  end.

(** A key with its name sent through the table once. *)
Definition renamed (tbl : list (string * string)) (k : ShapeKey) : ShapeKey :=
  match target_of tbl (sk_name k) with
  | Some t => set_sk_name t k
  | None => k
  end.

(** What one turn of the loop does to the keys it works on. *)
Definition apply_entry (keys : list ShapeKey) (m : string * string) : list ShapeKey :=
  let idx := find sk_name m.1 keys in
  if decide (idx ≠ -1) then alter (set_sk_name m.2) (Z.to_nat idx) keys else keys.

(** No target of the table is a source of the table. *)
Definition table_ok (tbl : list (string * string)) : Prop :=
  ∀ t, t ∈ targets tbl → t ∉ sources tbl.

(** At most one key of the block is named [s]. *)
Definition at_most_once (s : string) (keys : list ShapeKey) : Prop :=
  ∀ i j ki kj, keys !! i = Some ki → keys !! j = Some kj →
               sk_name ki = s → sk_name kj = s → i = j.

Definition sources_once (tbl : list (string * string)) (keys : list ShapeKey) : Prop :=
  ∀ s, s ∈ sources tbl → at_most_once s keys.

(** Every block bears each source name at most once. *)
Definition blocks_once (tbl : list (string * string))
    (kb : gmap nat (list ShapeKey)) : Prop :=
  ∀ d keys, kb !! d = Some keys → sources_once tbl keys.

(** No key of the block bears a source name. *)
Definition clean (tbl : list (string * string)) (keys : list ShapeKey) : Prop :=
  Forall (λ k, sk_name k ∉ sources tbl) keys.

(** The host keeps the names of the elements of a collection distinct. *)
Definition unique_key_names (kb : gmap nat (list ShapeKey)) : Prop :=
  ∀ d keys, kb !! d = Some keys → NoDup (sk_name <$> keys).

Definition unique_object_names (objs : list Object) : Prop :=
  NoDup (ob_name <$> objs).

(** The hierarchy has no cycle: [rank] goes down from an object to each of
    its children. *)
Definition ranked (rank : nat → nat) (objs : list Object) : Prop :=
  ∀ x o c, objs !! x = Some o → c ∈ ob_children o → (rank c < rank x)%nat.

(** The number of keys of a block that bear a source name, and the total
    over the data blocks. *)
Definition pending (tbl : list (string * string)) (keys : list ShapeKey) : nat :=
  length (filter (λ k, sk_name k ∈ sources tbl) keys).

Definition pending_total (tbl : list (string * string))
    (kb : gmap nat (list ShapeKey)) : nat :=
  sum_list_with (λ p, pending tbl p.2) (map_to_list kb).

(** The loop of lines 64-73 without the traversal: each object of the scene
    is met once. *)
Definition rename_loop_once (st : State) : State :=
  foldl visit st (seq 0 (length (objects st))).

(** The body of the inner loop, by data block. *)
Definition touch (st : State) (d : nat) : State :=
  foldl (rename_entry d) st (table st).

(** The data blocks behind a list of objects. *)
Definition datas (objs : list Object) (xs : list nat) : list nat :=
  omap (λ x, objs !! x ≫= ob_data) xs.


(** Enough fuel for the traversal from every object of the scene. *)
Definition deep_enough (rank : nat → nat) (objs : list Object) (fuel : nat) : Prop :=
  ∀ x, (x < length objs)%nat → (rank x < fuel)%nat.

(** ** A sample scene

    A rig with two meshes that share their mesh data, and a third mesh with
    keys of its own. *)
Definition demo_objects : list Object :=
  [ mkObject "AvatarRoot" [1; 2; 3]%nat None;
    mkObject "Head" [] (Some 7%nat);
    mkObject "Teeth" [] (Some 7%nat);
    mkObject "Body" [] (Some 9%nat) ].

Definition demo_key_blocks : gmap nat (list ShapeKey) :=
  <[7%nat := [ mkShapeKey "Basis" [0]; mkShapeKey "aa" [1; 2];
               mkShapeKey "E" [3]; mkShapeKey "blink" [4] ]]>
    (<[9%nat := [ mkShapeKey "Basis" []; mkShapeKey "viseme_sil" [5] ]]> ∅).

Definition demo : State := mkState demo_objects demo_key_blocks shapekeyMap 0 [].

Definition demo_rank (x : nat) : nat :=
  match x with O => 1%nat | _ => 0%nat end.

(** The same scene once processed: nothing left to rename. *)
Definition demo_done : State :=
  mkState
    [ mkObject "Armature" [1; 2; 3]%nat None;
      mkObject "Head" [] (Some 7%nat);
      mkObject "Teeth" [] (Some 7%nat);
      mkObject "Body" [] (Some 9%nat) ]
    (<[7%nat := [ mkShapeKey "Basis" [0]; mkShapeKey "viseme_aa" [1; 2];
                  mkShapeKey "viseme_E" [3]; mkShapeKey "blink" [4] ]]>
       (<[9%nat := [ mkShapeKey "Basis" []; mkShapeKey "viseme_sil" [5] ]]> ∅))
    shapekeyMap 0 [].

(** A host whose importer yields the sample scene and whose exporter
    succeeds. *)
Definition demo_host : Host :=
  mkHost (λ _ _, inr (scene_of demo)) (λ _ _, None).

(** ** Notions for the further properties *)

(** [y] is [x] or comes under [x] in the hierarchy. *)
Inductive descendant (objs : list Object) : nat → nat → Prop :=
  | descendant_self x : descendant objs x x
  | descendant_child x o c y :
      objs !! x = Some o → c ∈ ob_children o →
      descendant objs c y → descendant objs x y.

(** The line of line 73. *)
Definition rename_line (m : string * string) : string :=
  "✅ Renamed shape key: " +:+ m.1 +:+ " -> " +:+ m.2.

(** From [st] to [st'] the output grew by rename lines only, and the counter
    by their number. *)
Definition printed_renames (tbl : list (string * string)) (st st' : State) : Prop :=
  ∃ lines,
    stdout st' = (stdout st ++ lines)%list ∧
    shape_keys_processed st' = (shape_keys_processed st + length lines)%nat ∧
    Forall (λ l, ∃ m, m ∈ tbl ∧ l = rename_line m) lines.

(** Every block of shape keys belongs to the data of some object. *)
Definition no_orphans (st : State) : Prop :=
  ∀ d keys, key_blocks st !! d = Some keys →
            ∃ x o, objects st !! x = Some o ∧ ob_data o = Some d.

(** No key bears a target name yet. *)
Definition no_target_names (tbl : list (string * string))
    (kb : gmap nat (list ShapeKey)) : Prop :=
  ∀ d keys, kb !! d = Some keys → Forall (λ k, sk_name k ∉ targets tbl) keys.

(** The name the table makes of a name. *)
Definition rename_name (tbl : list (string * string)) (n : string) : string :=
  default n (target_of tbl n).

(** A scene like the sample one on which no key bears a target name. *)
Definition demo_fresh : State :=
  mkState demo_objects
    (<[7%nat := [ mkShapeKey "Basis" [0]; mkShapeKey "aa" [1; 2];
                  mkShapeKey "E" [3]; mkShapeKey "blink" [4] ]]>
       (<[9%nat := [ mkShapeKey "Basis" []; mkShapeKey "ou" [5] ]]> ∅))
    shapekeyMap 0 [].

(** The hierarchy is a forest, as the host builds it from each object's
    parent: no object is listed twice among the children of an object, nor
    among the children of two objects. *)
Definition forest (objs : list Object) : Prop :=
  (∀ x o, objs !! x = Some o → NoDup (ob_children o)) ∧
  (∀ x1 x2 o1 o2 c,
     objs !! x1 = Some o1 → objs !! x2 = Some o2 →
     c ∈ ob_children o1 → c ∈ ob_children o2 → x1 = x2).

(** ** The script under the rules of the host *)

(** [%03d] *)
Definition pad3 (k : nat) : string :=
  let s := pretty k in
  match String.length s with
  | 1%nat => "00" +:+ s
  | 2%nat => "0" +:+ s
  | _ => s
  end.

(** [n.001], [n.002], ... *)
Definition numbered (n : string) (k : nat) : string := n +:+ "." +:+ pad3 k.

(** The name the host stores when [n] is assigned to an element of a
    collection whose other elements bear the names [others]: [n] itself when
    none of them bears it, else [n] with the first free of the suffixes
    .001, .002, ...  This is the host's rule for a name that carries no such
    suffix of its own, as are all the names the script assigns. *)
Definition host_unique_name (others : list string) (n : string) : string :=
  if bool_decide (n ∈ others) then
    default n
      (head (filter (λ c, c ∉ others) (numbered n <$> seq 1 (S (length others)))))
  else n.

(** [keys[idx].name = n] (line 71) as the host carries it out. *)
Definition host_set_key_name (idx : nat) (n : string) (keys : list ShapeKey)
  : list ShapeKey :=
  alter (set_sk_name (host_unique_name (sk_name <$> delete idx keys) n)) idx keys.

(** What one turn of the loop does to the keys it works on, under the
    host's rule. *)
Definition host_apply_entry (keys : list ShapeKey) (m : string * string)
  : list ShapeKey :=
  let idx := find sk_name m.1 keys in
  if decide (idx ≠ -1) then host_set_key_name (Z.to_nat idx) m.2 keys else keys.

(** Lines 69-73. *)
Definition rename_entry_host (d : nat) (st : State) (m : string * string) : State :=
  match key_blocks st !! d with
  | Some keys =>
      let idx := find sk_name m.1 keys in
      if decide (idx ≠ -1) then
        print ("✅ Renamed shape key: " +:+ m.1 +:+ " -> " +:+ m.2)
          (with_processed (S (shape_keys_processed st))
             (with_key_blocks
                (<[d := host_set_key_name (Z.to_nat idx) m.2 keys]> (key_blocks st))
                st))
      else st
  | None => st
  end.

(** Lines 66-73. *)
Definition visit_host (st : State) (x : nat) : State :=
  if hasShapekeys st x then
    match objects st !! x ≫= ob_data with
    | Some d => foldl (rename_entry_host d) st (table st)
    | None => st
    end
  else st.

(** Lines 64-73. *)
Definition rename_loop_host (fuel : nat) (st : State) : option State :=
  foldl (λ acc r,
           st' ← acc;
           os ← traverse fuel (objects st') r;
           Some (foldl visit_host st' os))
        (Some st) (seq 0 (length (objects st))).

(** Lines 63-75. *)
Definition rename_shape_keys_host (fuel : nat) (st : State) : option State :=
  st' ← rename_loop_host fuel (with_processed 0 st);
  Some (print ("✅ Processed " +:+ pretty (shape_keys_processed st') +:+ " shape keys") st').

(** The body of the inner loop, by data block. *)
Definition touch_host (st : State) (d : nat) : State :=
  foldl (rename_entry_host d) st (table st).

(** Lines 49-52.  Object names are distinct in the whole of
    [bpy.data.objects]: [outside] are the names of its objects that are not
    in the scene. *)
Definition rename_root_host (outside : list string) (st : State) : State :=
  let idx := find ob_name "AvatarRoot" (objects st) in
  if decide (idx ≠ -1) then
    let others := ((ob_name <$> delete (Z.to_nat idx) (objects st)) ++ outside)%list in
    print "✅ Renamed AvatarRoot to Armature"
      (with_objects
         (alter (set_ob_name (host_unique_name others "Armature"))
            (Z.to_nat idx) (objects st))
         st)
  else st.

(** What the host adds to [Host]: what lines 37-38 leave of a scene (hidden
    objects are not selected, so they stay), the names of the objects of
    [bpy.data.objects] that are not in the scene, and the operator of line
    59 with lines 57-58 that prepare it, which give the exception text or
    the scene with the transforms applied. *)
Record Blender := mkBlender {
  bl_host : Host;
  bl_clear : Scene → Scene;
  bl_outside : list string;
  bl_transform_apply : Scene → string + Scene;
}.

(** Lines 55-60.  [bpy.data.objects.get] finds an object named "Armature"
    in the scene or outside of it; one outside of the scene cannot be made
    active, line 57 raises.  [Some e] is the exception that ends the
    script. *)
Definition apply_transforms_host (bl : Blender) (st : State) : State * option string :=
  if bool_decide ("Armature" ∈ ob_name <$> objects st) then
    match bl_transform_apply bl (scene_of st) with
    | inl _ => (st, Some "RuntimeError")
    | inr sc => (print "✅ Applied transforms to Armature" (with_scene sc st), None)
    end
  else if bool_decide ("Armature" ∈ bl_outside bl) then (st, Some "RuntimeError")
  else (st, None).

(** Lines 49-75. *)
Definition process_host (fuel : nat) (bl : Blender) (st : State)
  : option (State * option string) :=
  match apply_transforms_host bl (rename_root_host (bl_outside bl) st) with
  | (st1, Some e) => Some (st1, Some e)
  | (st1, None) => st2 ← rename_shape_keys_host fuel st1; Some (st2, None)
  end.


(** ** Notions and samples for the host's rules *)

(** The key at index [i] of the block still bears the source name [s], is
    alone to bear it and has the data [dat]; no key bears [t]. *)
Definition key_pending (s t : string) (i : nat) (dat : list Z)
    (keys : list ShapeKey) : Prop :=
  keys !! i = Some (mkShapeKey s dat) ∧ at_most_once s keys ∧ t ∉ sk_name <$> keys.

(** The key at index [i] of the block bears [t] and has the data [dat]. *)
Definition key_done (t : string) (i : nat) (dat : list Z) (keys : list ShapeKey) : Prop :=
  keys !! i = Some (mkShapeKey t dat).

(** What the table has to be for the host's suffixes to do no harm: targets
    and sources as in [table_ok], each source and each target once, and no
    target the beginning of a source or of another target. *)
Definition table_host_ok (tbl : list (string * string)) : Prop :=
  table_ok tbl ∧ NoDup (sources tbl) ∧ NoDup (targets tbl) ∧
  (∀ t s, t ∈ targets tbl → s ∈ sources tbl → String.prefix t s = false) ∧
  (∀ t t', t ∈ targets tbl → t' ∈ targets tbl → String.prefix t t' = true → t = t').

(** [k] is [k0] with its data, under its own name or under a name the host
    made of the target the table pairs with it. *)
Definition key_evolved_host (tbl : list (string * string)) (k0 k : ShapeKey) : Prop :=
  sk_data k = sk_data k0 ∧
  (sk_name k = sk_name k0 ∨
   ∃ t, (sk_name k0, t) ∈ tbl ∧ String.prefix t (sk_name k) = true).

(** The same data blocks, each with the same keys in the same places, every
    key evolved as above. *)
Definition blocks_evolved_host (tbl : list (string * string))
    (kb0 kb : gmap nat (list ShapeKey)) : Prop :=
  ∀ d, match kb0 !! d, kb !! d with
       | Some keys0, Some keys => Forall2 (key_evolved_host tbl) keys0 keys
       | None, None => True
       | _, _ => False
       end.

(** The block [d] is there and its keys satisfy [R]. *)
Definition block_sat (R : list ShapeKey → Prop) (st : State) (d : nat) : Prop :=
  ∃ keys, key_blocks st !! d = Some keys ∧ R keys.

(** [R] holds on through every turn of the loop for an entry of [tbl]. *)
Definition turn_closed (tbl : list (string * string))
    (R : list ShapeKey → Prop) : Prop :=
  ∀ keys m, m ∈ tbl → R keys → R (host_apply_entry keys m).

(** The sample scene with a key already named as a target. *)
Definition demo_collide : State :=
  mkState demo_objects
    (<[7%nat := [ mkShapeKey "Basis" [0]; mkShapeKey "viseme_aa" [6];
                  mkShapeKey "aa" [1; 2]; mkShapeKey "blink" [4] ]]>
       (<[9%nat := [ mkShapeKey "Basis" []; mkShapeKey "E" [5] ]]> ∅))
    shapekeyMap 0 [].


(** A host that imports the sample scene, hides nothing, holds no object
    outside of the scene, and whose transform step succeeds and changes
    nothing the model carries. *)
Definition demo_blender : Blender :=
  mkBlender demo_host (λ sc, mkScene [] (sc_key_blocks sc)) [] (λ sc, inr sc).

(** The same host with a transform step that raises. *)
Definition demo_blender_raising : Blender :=
  mkBlender demo_host (λ sc, mkScene [] (sc_key_blocks sc)) []
    (λ _, inl "Cannot apply to a multi user").

(** ** The host collections *)

Section find.
Context {A : Type} (nm : A → string).

Lemma find_from_list_find key l i :
  find_from nm key l i =
    match list_find (λ x, nm x = key) l with
    | Some (j, _) => i + Z.of_nat j
    | None => -1
    end.
Proof.
  revert i. induction l as [|x l IH]; intros i; simpl; [done|].
  case_decide; [f_equal; lia|].
  rewrite IH. destruct (list_find _ l) as [[j y]|]; simpl; [lia|done].
Qed.

Lemma find_not_found key l :
  find nm key l = -1 ↔ key ∉ nm <$> l.
Proof.
  unfold find. rewrite find_from_list_find.
  destruct (list_find _ l) as [[j y]|] eqn:E.
  - apply list_find_Some in E as (Hj & Hy & _). split; [lia|].
    intros Hn. destruct Hn. apply list_elem_of_fmap. exists y.
    split; [done|]. by eapply list_elem_of_lookup_2.
  - apply list_find_None in E. split; [|done]. intros _ Hin.
    apply list_elem_of_fmap in Hin as (y & -> & Hy).
    rewrite Forall_forall in E. by apply (E y).
Qed.

Lemma find_found key l :
  find nm key l ≠ -1 →
  ∃ x, l !! Z.to_nat (find nm key l) = Some x ∧ nm x = key ∧
       ∀ j y, l !! j = Some y → (j < Z.to_nat (find nm key l))%nat → nm y ≠ key.
Proof.
  unfold find. rewrite find_from_list_find.
  destruct (list_find _ l) as [[j y]|] eqn:E; [|done]. intros _.
  apply list_find_Some in E as (Hj & Hy & Hfirst).
  replace (Z.to_nat (0 + Z.of_nat j)) with j by lia. eauto.
Qed.

End find.

(** ** The table and a single block of keys *)

Lemma target_of_None tbl n : target_of tbl n = None ↔ n ∉ sources tbl.
Proof.
  unfold sources. induction tbl as [|m tbl IH]; simpl.
  - split; [intros _; apply not_elem_of_nil|done].
  - rewrite not_elem_of_cons. case_decide as Hm.
    + split; [done|]. intros [Hn _]. by destruct Hn.
    + rewrite IH. split; [intros Hn; split; [congruence|done]|by intros [_ Hn]].
Qed.

Lemma target_of_Some tbl n t : target_of tbl n = Some t → (n, t) ∈ tbl.
Proof.
  induction tbl as [|[s t'] tbl IH]; simpl; [done|].
  case_decide; simplify_eq/=.
  - intros [= ->]. left.
  - intros H'. right. by apply IH.
Qed.

Lemma target_of_elem tbl s t :
  NoDup (sources tbl) → (s, t) ∈ tbl → target_of tbl s = Some t.
Proof.
  unfold sources. induction tbl as [|[s' t'] tbl IH]; simpl.
  - intros _ H. by apply elem_of_nil in H.
  - intros [Hs' Hnd]%NoDup_cons [[= -> ->]|Hin]%elem_of_cons.
    + by rewrite decide_True.
    + rewrite decide_False; [by apply IH|].
      intros ->. apply Hs'. apply list_elem_of_fmap. by exists (s, t).
Qed.

Lemma table_ok_tail m tbl : table_ok (m :: tbl) → table_ok tbl.
Proof.
  unfold table_ok, targets, sources. intros H t Ht Hs.
  apply (H t); simpl; by right.
Qed.

Lemma table_ok_head m tbl : table_ok (m :: tbl) → m.2 ∉ sources tbl.
Proof.
  unfold table_ok, targets, sources. intros H Hs.
  apply (H m.2); simpl; [left|by right].
Qed.

Lemma renamed_clean_key tbl k : sk_name k ∉ sources tbl → renamed tbl k = k.
Proof. intros H. unfold renamed. by apply target_of_None in H as ->. Qed.

Lemma renamed_not_source tbl k :
  table_ok tbl → sk_name (renamed tbl k) ∉ sources tbl.
Proof.
  intros Hok. unfold renamed.
  destruct (target_of tbl (sk_name k)) as [t|] eqn:E; simpl.
  - apply Hok. apply target_of_Some in E. unfold targets.
    apply list_elem_of_fmap. by exists (sk_name k, t).
  - by apply target_of_None.
Qed.

Lemma renamed_idemp tbl k :
  table_ok tbl → renamed tbl (renamed tbl k) = renamed tbl k.
Proof. intros Hok. apply renamed_clean_key. by apply renamed_not_source. Qed.

Lemma clean_renamed tbl keys : table_ok tbl → clean tbl (renamed tbl <$> keys).
Proof.
  intros Hok. unfold clean. rewrite Forall_fmap. apply Forall_forall.
  intros k _. by apply renamed_not_source.
Qed.

Lemma unique_once tbl keys : NoDup (sk_name <$> keys) → sources_once tbl keys.
Proof.
  intros Hnd s _ i j ki kj Hi Hj Hki Hkj.
  eapply (NoDup_lookup _ i j s); [done| |];
    rewrite list_lookup_fmap; [rewrite Hi|rewrite Hj]; simpl; congruence.
Qed.

Lemma clean_once tbl keys : clean tbl keys → sources_once tbl keys.
Proof.
  unfold clean. rewrite Forall_forall. intros Hc s Hs i j ki kj Hi _ Hki _.
  destruct (Hc ki); [|congruence]. by eapply list_elem_of_lookup_2.
Qed.

(** One turn of the loop, when the source name is borne by at most one key,
    renames bearers of that name and nothing else. *)
Lemma apply_entry_fmap keys m :
  at_most_once m.1 keys →
  apply_entry keys m =
    (λ k, if decide (sk_name k = m.1) then set_sk_name m.2 k else k) <$> keys.
Proof.
  intros Honce. unfold apply_entry. case_decide as Hidx.
  - destruct (find_found sk_name _ _ Hidx) as (x & Hx & Hnm & _).
    apply list_eq. intros i.
    rewrite list_lookup_alter, list_lookup_fmap. case_decide as Hi.
    + subst i. rewrite Hx. simpl. by rewrite decide_True.
    + destruct (keys !! i) as [y|] eqn:Hy; simpl; [|done].
      rewrite decide_False; [done|]. intros Hy'. apply Hi.
      by apply (Honce _ _ x y).
  - assert (find sk_name m.1 keys = -1) as Hnone by lia.
    apply find_not_found in Hnone.
    rewrite <-(list_fmap_id keys) at 1. apply Forall_fmap_ext, Forall_forall.
    intros k Hk. rewrite decide_False; [done|]. intros Hk'. apply Hnone.
    apply list_elem_of_fmap. by exists k.
Qed.

(** The whole inner loop on such a block sends each key's name through the
    table once. *)
Lemma foldl_apply_entry tbl keys :
  table_ok tbl → sources_once tbl keys →
  foldl apply_entry keys tbl = renamed tbl <$> keys.
Proof.
  revert keys. induction tbl as [|m tbl IH]; intros keys Hok Honce; simpl.
  - unfold renamed. simpl. by rewrite list_fmap_id.
  - pose proof (table_ok_head _ _ Hok) as Hm2.
    rewrite apply_entry_fmap by (apply Honce; unfold sources; simpl; left).
    rewrite IH.
    + rewrite <-list_fmap_compose. apply list_fmap_ext. intros _ k _. simpl.
      unfold renamed. simpl. case_decide as Hk.
      * rewrite decide_True by done. simpl.
        by apply target_of_None in Hm2 as ->.
      * by rewrite decide_False by done.
    + by eapply table_ok_tail.
    + intros s Hs i j ki kj.
      rewrite !list_lookup_fmap. intros Hi Hj Hki Hkj.
      destruct (keys !! i) as [ki0|] eqn:Hi0; simplify_eq/=.
      destruct (keys !! j) as [kj0|] eqn:Hj0; simplify_eq/=.
      repeat case_decide; simpl in *; try (by destruct Hm2; congruence).
      apply (Honce (sk_name ki0)) with ki0 kj0; try done.
      unfold sources. simpl. by right.
Qed.

Lemma apply_entry_clean tbl keys m :
  clean tbl keys → m ∈ tbl → apply_entry keys m = keys.
Proof.
  unfold clean. rewrite Forall_forall. intros Hc Hm. unfold apply_entry.
  rewrite decide_False; [done|]. intros Hidx.
  destruct (find_found sk_name _ _ Hidx) as (x & Hx & Hnm & _).
  apply (Hc x); [by eapply list_elem_of_lookup_2|].
  rewrite Hnm. unfold sources. apply list_elem_of_fmap. by exists m.
Qed.

(** Each rename takes one key out of those that bear a source name. *)
Lemma pending_alter tbl f keys i x :
  keys !! i = Some x → sk_name x ∈ sources tbl → sk_name (f x) ∉ sources tbl →
  S (pending tbl (alter f i keys)) = pending tbl keys.
Proof.
  unfold pending. revert i. induction keys as [|k keys IH]; intros i Hi Hx Hfx;
    [done|].
  destruct i as [|i]; simpl in Hi.
  - simplify_eq. change (alter f 0%nat (x :: keys)) with (f x :: keys).
    rewrite !filter_cons.
    rewrite decide_False by done. by rewrite decide_True by done.
  - change (alter f (S i) (k :: keys)) with (k :: alter f i keys).
    rewrite !filter_cons. specialize (IH i Hi Hx Hfx).
    case_decide; simpl; lia.
Qed.

Lemma pending_total_insert tbl kb d keys keys' :
  kb !! d = Some keys →
  (pending_total tbl (<[d := keys']> kb) + pending tbl keys
   = pending_total tbl kb + pending tbl keys')%nat.
Proof.
  intros Hd. unfold pending_total.
  rewrite <-(insert_delete_eq kb d keys').
  rewrite (sum_list_with_Permutation_proper _ _ _
             (map_to_list_insert (delete d kb) d keys' (lookup_delete_eq kb d))).
  rewrite <-(sum_list_with_Permutation_proper _ _ _ (map_to_list_delete kb d keys Hd)).
  simpl. lia.
Qed.

(** ** One turn of the loop on the state *)

Lemma rename_entry_objects d st m : objects (rename_entry d st m) = objects st.
Proof.
  unfold rename_entry. destruct (key_blocks st !! d); [|done]. by case_decide.
Qed.

Lemma rename_entry_table d st m : table (rename_entry d st m) = table st.
Proof.
  unfold rename_entry. destruct (key_blocks st !! d); [|done]. by case_decide.
Qed.

Lemma rename_entry_absent d st m :
  key_blocks st !! d = None → rename_entry d st m = st.
Proof. unfold rename_entry. by intros ->. Qed.

Lemma rename_entry_blocks d st m keys :
  key_blocks st !! d = Some keys →
  key_blocks (rename_entry d st m) = <[d := apply_entry keys m]> (key_blocks st).
Proof.
  intros Hd. unfold rename_entry, apply_entry. rewrite Hd. simpl.
  case_decide; simpl; [done|]. by rewrite insert_id.
Qed.

Lemma rename_entry_clean tbl d st m :
  (∀ keys, key_blocks st !! d = Some keys → clean tbl keys) → m ∈ tbl →
  rename_entry d st m = st.
Proof.
  intros Hc Hm. unfold rename_entry.
  destruct (key_blocks st !! d) as [keys|] eqn:Hd; [|done].
  pose proof (apply_entry_clean tbl keys m (Hc keys eq_refl) Hm) as Hk.
  unfold apply_entry in Hk. simpl. case_decide as Hidx; [|done].
  destruct (find_found sk_name _ _ Hidx) as (x & Hx & Hnm & _).
  specialize (Hc keys eq_refl). unfold clean in Hc. rewrite Forall_forall in Hc.
  destruct (Hc x); [by eapply list_elem_of_lookup_2|].
  rewrite Hnm. unfold sources. apply list_elem_of_fmap. by exists m.
Qed.

(** The counter goes up by what the blocks lose in keys with a source
    name. *)
Lemma rename_entry_conserves tbl d st m :
  table_ok tbl → m ∈ tbl →
  (shape_keys_processed (rename_entry d st m)
     + pending_total tbl (key_blocks (rename_entry d st m))
   = shape_keys_processed st + pending_total tbl (key_blocks st))%nat.
Proof.
  intros Hok Hm. unfold rename_entry.
  destruct (key_blocks st !! d) as [keys|] eqn:Hd; [|done].
  simpl. case_decide as Hidx; [|done]. simpl.
  destruct (find_found sk_name _ _ Hidx) as (x & Hx & Hnm & _).
  pose proof (pending_total_insert tbl _ d keys
                (alter (set_sk_name m.2) (Z.to_nat (find sk_name m.1 keys)) keys) Hd)
    as Hins.
  assert (S (pending tbl (alter (set_sk_name m.2)
                            (Z.to_nat (find sk_name m.1 keys)) keys))
          = pending tbl keys) as Hp.
  { apply pending_alter with x; [done| |].
    - rewrite Hnm. unfold sources. apply list_elem_of_fmap. by exists m.
    - simpl. apply Hok. unfold targets. apply list_elem_of_fmap. by exists m. }
  lia.
Qed.

(** ** The inner loop on one data block *)

Lemma foldl_rename_entry_objects d st ms :
  objects (foldl (rename_entry d) st ms) = objects st.
Proof.
  revert st. induction ms as [|m ms IH]; intros st; simpl; [done|].
  by rewrite IH, rename_entry_objects.
Qed.

Lemma foldl_rename_entry_table d st ms :
  table (foldl (rename_entry d) st ms) = table st.
Proof.
  revert st. induction ms as [|m ms IH]; intros st; simpl; [done|].
  by rewrite IH, rename_entry_table.
Qed.

Lemma foldl_rename_entry_absent d st ms :
  key_blocks st !! d = None → foldl (rename_entry d) st ms = st.
Proof.
  intros Hd. induction ms as [|m ms IH]; simpl; [done|].
  by rewrite rename_entry_absent.
Qed.

Lemma foldl_rename_entry_blocks d st ms keys :
  key_blocks st !! d = Some keys →
  key_blocks (foldl (rename_entry d) st ms)
  = <[d := foldl apply_entry keys ms]> (key_blocks st).
Proof.
  revert st keys. induction ms as [|m ms IH]; intros st keys Hd; simpl.
  - by rewrite insert_id.
  - rewrite (IH _ (apply_entry keys m)).
    + rewrite (rename_entry_blocks _ _ _ keys Hd). by rewrite insert_insert_eq.
    + rewrite (rename_entry_blocks _ _ _ keys Hd). by rewrite lookup_insert_eq.
Qed.

Lemma foldl_rename_entry_clean tbl d st ms :
  (∀ keys, key_blocks st !! d = Some keys → clean tbl keys) →
  Forall (λ m, m ∈ tbl) ms →
  foldl (rename_entry d) st ms = st.
Proof.
  intros Hc Hms. induction Hms as [|m ms Hm Hms IH]; simpl; [done|].
  by rewrite (rename_entry_clean tbl).
Qed.

Lemma foldl_rename_entry_conserves tbl d st ms :
  table_ok tbl → Forall (λ m, m ∈ tbl) ms →
  (shape_keys_processed (foldl (rename_entry d) st ms)
     + pending_total tbl (key_blocks (foldl (rename_entry d) st ms))
   = shape_keys_processed st + pending_total tbl (key_blocks st))%nat.
Proof.
  intros Hok Hms. revert st.
  induction Hms as [|m ms Hm Hms IH]; intros st; simpl; [done|].
  rewrite IH. by apply rename_entry_conserves.
Qed.

(** ** Visiting objects *)

Lemma touch_objects st d : objects (touch st d) = objects st.
Proof. apply foldl_rename_entry_objects. Qed.

Lemma touch_table st d : table (touch st d) = table st.
Proof. apply foldl_rename_entry_table. Qed.

Lemma touch_blocks tbl st d :
  table st = tbl → table_ok tbl → blocks_once tbl (key_blocks st) →
  key_blocks (touch st d) = alter (fmap (renamed tbl)) d (key_blocks st).
Proof.
  intros Ht Hok Honce. unfold touch. rewrite Ht.
  destruct (key_blocks st !! d) as [keys|] eqn:Hd.
  - rewrite (foldl_rename_entry_blocks _ _ _ keys Hd).
    rewrite foldl_apply_entry by eauto.
    apply map_eq. intros d'. rewrite lookup_insert, lookup_alter.
    case_decide; [by rewrite Hd|done].
  - rewrite foldl_rename_entry_absent by done.
    apply map_eq. intros d'. rewrite lookup_alter.
    case_decide; [subst; by rewrite Hd|done].
Qed.

Lemma touch_blocks_once tbl st d :
  table st = tbl → table_ok tbl → blocks_once tbl (key_blocks st) →
  blocks_once tbl (key_blocks (touch st d)).
Proof.
  intros Ht Hok Honce. rewrite (touch_blocks tbl) by done.
  intros d' keys. rewrite lookup_alter. case_decide.
  - destruct (key_blocks st !! d) as [keys0|]; simpl; [|done].
    intros [= <-]. by apply clean_once, clean_renamed.
  - apply Honce.
Qed.

Lemma touch_conserves tbl st d :
  table st = tbl → table_ok tbl →
  (shape_keys_processed (touch st d) + pending_total tbl (key_blocks (touch st d))
   = shape_keys_processed st + pending_total tbl (key_blocks st))%nat.
Proof.
  intros Ht Hok. unfold touch. apply foldl_rename_entry_conserves; [done|].
  rewrite Ht. by apply Forall_forall.
Qed.

Lemma visit_touch st x :
  visit st x =
    match objects st !! x ≫= ob_data with
    | Some d => touch st d
    | None => st
    end.
Proof.
  unfold visit, hasShapekeys, touch.
  destruct (objects st !! x) as [o|]; simpl; [|done].
  destruct (ob_data o) as [d|]; [|done].
  case_bool_decide as Hd; [done|].
  rewrite foldl_rename_entry_absent; [done|].
  destruct (key_blocks st !! d) eqn:E; [|done]. destruct Hd. by eexists.
Qed.

Lemma visit_objects st x : objects (visit st x) = objects st.
Proof.
  rewrite visit_touch. destruct (objects st !! x ≫= ob_data); [|done].
  apply touch_objects.
Qed.

Lemma visit_table st x : table (visit st x) = table st.
Proof.
  rewrite visit_touch. destruct (objects st !! x ≫= ob_data); [|done].
  apply touch_table.
Qed.

Lemma foldl_visit_objects st xs : objects (foldl visit st xs) = objects st.
Proof.
  revert st. induction xs as [|x xs IH]; intros st; simpl; [done|].
  by rewrite IH, visit_objects.
Qed.

Lemma foldl_visit_table st xs : table (foldl visit st xs) = table st.
Proof.
  revert st. induction xs as [|x xs IH]; intros st; simpl; [done|].
  by rewrite IH, visit_table.
Qed.

Lemma foldl_visit_touch st xs :
  foldl visit st xs = foldl touch st (datas (objects st) xs).
Proof.
  revert st. induction xs as [|x xs IH]; intros st; [done|].
  simpl. rewrite IH, visit_objects, visit_touch. unfold datas. simpl.
  by destruct (objects st !! x ≫= ob_data).
Qed.

(** After any number of visits, a block that was visited has had each name
    sent through the table once, and the others are as they were. *)
Lemma foldl_touch_lookup tbl st ds d :
  table st = tbl → table_ok tbl → blocks_once tbl (key_blocks st) →
  key_blocks (foldl touch st ds) !! d =
    if decide (d ∈ ds) then fmap (renamed tbl) <$> key_blocks st !! d
    else key_blocks st !! d.
Proof.
  intros Ht Hok. revert st Ht.
  induction ds as [|d0 ds IH]; intros st Ht Honce.
  - destruct (decide (d ∈ [])) as [Hin|_]; [by apply elem_of_nil in Hin|done].
  - change (foldl touch st (d0 :: ds)) with (foldl touch (touch st d0) ds).
    rewrite IH; [|by rewrite touch_table|by apply touch_blocks_once].
    rewrite (touch_blocks tbl) by done. rewrite lookup_alter.
    destruct (decide (d ∈ d0 :: ds)) as [Hin|Hnin].
    + destruct (decide (d0 = d)) as [->|Hne].
      * destruct (decide (d ∈ ds)); [|done].
        destruct (key_blocks st !! d) as [keys|]; simpl; [|done].
        f_equal. rewrite <-list_fmap_compose. apply list_fmap_ext.
        intros _ k _. simpl. by apply renamed_idemp.
      * apply elem_of_cons in Hin as [->|Hin]; [done|].
        by destruct (decide (d ∈ ds)).
    + apply not_elem_of_cons in Hnin as [Hne Hnin].
      destruct (decide (d ∈ ds)); [done|].
      destruct (decide (d0 = d)); [congruence|done].
Qed.

Lemma foldl_touch_conserves tbl st ds :
  table st = tbl → table_ok tbl →
  (shape_keys_processed (foldl touch st ds)
     + pending_total tbl (key_blocks (foldl touch st ds))
   = shape_keys_processed st + pending_total tbl (key_blocks st))%nat.
Proof.
  intros Ht Hok. revert st Ht.
  induction ds as [|d ds IH]; intros st Ht; simpl; [done|].
  rewrite IH by (by rewrite touch_table). by apply touch_conserves.
Qed.

(** Visits of blocks that are all clean do nothing at all. *)
Lemma foldl_touch_clean tbl st ds :
  table st = tbl →
  (∀ d keys, d ∈ ds → key_blocks st !! d = Some keys → clean tbl keys) →
  foldl touch st ds = st.
Proof.
  intros Ht. induction ds as [|d ds IH]; intros Hc; simpl; [done|].
  assert (touch st d = st) as ->.
  { unfold touch. apply (foldl_rename_entry_clean tbl).
    - intros keys. apply Hc. left.
    - rewrite Ht. by apply Forall_forall. }
  apply IH. intros d' keys Hd'. apply Hc. by right.
Qed.

Lemma elem_of_datas objs xs d :
  d ∈ datas objs xs ↔ ∃ x o, x ∈ xs ∧ objs !! x = Some o ∧ ob_data o = Some d.
Proof.
  unfold datas. rewrite list_elem_of_omap. split.
  - intros (x & Hx & Hd). destruct (objs !! x) as [o|] eqn:Ho; [|done].
    exists x, o. eauto.
  - intros (x & o & Hx & Ho & Hd). exists x. split; [done|].
    by rewrite Ho.
Qed.

(** ** The traversal *)

(** With more fuel than the rank of its root, the traversal ends. *)
Lemma traverse_total rank objs fuel x :
  ranked rank objs → (rank x < fuel)%nat → is_Some (traverse fuel objs x).
Proof.
  intros Hr. revert x. induction fuel as [|fuel IH]; intros x Hx; [lia|].
  simpl. destruct (objs !! x) as [o|] eqn:Ho; [|by eexists].
  destruct (mapM_is_Some_2 (traverse fuel objs) (ob_children o)) as [sub Hsub].
  - apply Forall_forall. intros c Hc. apply IH.
    specialize (Hr x o c Ho Hc). lia.
  - rewrite Hsub. by eexists.
Qed.

(** The traversal yields its root. *)
Lemma traverse_root fuel objs x os : traverse fuel objs x = Some os → x ∈ os.
Proof.
  destruct fuel as [|fuel]; simpl; [done|].
  destruct (objs !! x) as [o|].
  - destruct (mapM _ _); simpl; [|done]. intros [= <-]. left.
  - intros [= <-]. left.
Qed.

(** The loop over the roots, with the traversals done first. *)
Lemma rename_loop_roots fuel st roots :
  foldl (λ acc r,
           st' ← acc;
           os ← traverse fuel (objects st') r;
           Some (foldl visit st' os))
        (Some st) roots
  = ls ← mapM (traverse fuel (objects st)) roots;
    Some (foldl visit st (concat ls)).
Proof.
  revert st. induction roots as [|r roots IH]; intros st; [done|].
  simpl. destruct (traverse fuel (objects st) r) as [os|] eqn:Hos; simpl.
  - rewrite IH, foldl_visit_objects.
    destruct (mapM _ roots) as [ls|]; simpl; [|done].
    by rewrite foldl_app.
  - clear IH. by induction roots.
Qed.

Lemma rename_loop_flat fuel st :
  rename_loop fuel st
  = ls ← mapM (traverse fuel (objects st)) (seq 0 (length (objects st)));
    Some (foldl visit st (concat ls)).
Proof. apply rename_loop_roots. Qed.

(** The data blocks the loop meets are those the objects of the scene
    have, whatever the hierarchy. *)
Lemma datas_traversals fuel objs ls d :
  mapM (traverse fuel objs) (seq 0 (length objs)) = Some ls →
  d ∈ datas objs (concat ls) ↔ d ∈ datas objs (seq 0 (length objs)).
Proof.
  intros Hls. apply mapM_Some in Hls. rewrite !elem_of_datas. split.
  - intros (x & o & _ & Ho & Hd). exists x, o. split; [|done].
    apply elem_of_seq. apply lookup_lt_Some in Ho. lia.
  - intros (x & o & Hx & Ho & Hd). exists x, o. split; [|done].
    apply elem_of_seq in Hx.
    destruct (Forall2_lookup_l _ _ _ x x Hls) as (os & Hos & Hx').
    { apply lookup_seq. lia. }
    apply list_elem_of_In, in_concat. exists os. split.
    + apply list_elem_of_In. by eapply list_elem_of_lookup_2.
    + apply list_elem_of_In. by eapply traverse_root.
Qed.

(** ** The loop of lines 64-73 *)

(** The loop ends; it leaves the objects and the table alone; a block behind
    an object of the scene has had each name sent through the table once,
    any other block is as it was; and the counter has gone up by the number
    of source names that went away. *)
Lemma rename_loop_spec tbl rank fuel st :
  table st = tbl → table_ok tbl → blocks_once tbl (key_blocks st) →
  ranked rank (objects st) →
  (∀ x, (x < length (objects st))%nat → (rank x < fuel)%nat) →
  ∃ st',
    rename_loop fuel st = Some st' ∧
    objects st' = objects st ∧
    table st' = table st ∧
    (∀ d, key_blocks st' !! d =
          if decide (d ∈ datas (objects st) (seq 0 (length (objects st))))
          then fmap (renamed tbl) <$> key_blocks st !! d
          else key_blocks st !! d) ∧
    (shape_keys_processed st' + pending_total tbl (key_blocks st')
     = shape_keys_processed st + pending_total tbl (key_blocks st))%nat.
Proof.
  intros Ht Hok Honce Hr Hfuel. rewrite rename_loop_flat.
  destruct (mapM_is_Some_2 (traverse fuel (objects st))
              (seq 0 (length (objects st)))) as [ls Hls].
  { apply Forall_forall. intros x Hx. apply (traverse_total rank); [done|].
    apply Hfuel. apply elem_of_seq in Hx. lia. }
  rewrite Hls. simpl. eexists. split; [done|].
  rewrite foldl_visit_objects, foldl_visit_table, foldl_visit_touch.
  split_and!; [done|done| |by apply foldl_touch_conserves].
  intros d. rewrite (foldl_touch_lookup tbl) by done.
  destruct (decide (d ∈ datas (objects st) (concat ls))) as [Hin|Hnin];
    rewrite (datas_traversals _ _ _ _ Hls) in *.
  - by rewrite decide_True.
  - by rewrite decide_False.
Qed.

(** On a scene whose objects bear no source name the loop changes
    nothing. *)
Lemma rename_loop_clean tbl rank fuel st :
  table st = tbl →
  ranked rank (objects st) →
  (∀ x, (x < length (objects st))%nat → (rank x < fuel)%nat) →
  (∀ x o d keys, objects st !! x = Some o → ob_data o = Some d →
                 key_blocks st !! d = Some keys → clean tbl keys) →
  rename_loop fuel st = Some st.
Proof.
  intros Ht Hr Hfuel Hc. rewrite rename_loop_flat.
  destruct (mapM_is_Some_2 (traverse fuel (objects st))
              (seq 0 (length (objects st)))) as [ls Hls].
  { apply Forall_forall. intros x Hx. apply (traverse_total rank); [done|].
    apply Hfuel. apply elem_of_seq in Hx. lia. }
  rewrite Hls. simpl. f_equal. rewrite foldl_visit_touch.
  apply (foldl_touch_clean tbl); [done|].
  intros d keys (x & o & _ & Ho & Hd)%elem_of_datas. by eapply Hc.
Qed.

Lemma rename_loop_once_spec tbl st :
  table st = tbl → table_ok tbl → blocks_once tbl (key_blocks st) →
  objects (rename_loop_once st) = objects st ∧
  (∀ d, key_blocks (rename_loop_once st) !! d =
        if decide (d ∈ datas (objects st) (seq 0 (length (objects st))))
        then fmap (renamed tbl) <$> key_blocks st !! d
        else key_blocks st !! d) ∧
  (shape_keys_processed (rename_loop_once st)
     + pending_total tbl (key_blocks (rename_loop_once st))
   = shape_keys_processed st + pending_total tbl (key_blocks st))%nat.
Proof.
  intros Ht Hok Honce. unfold rename_loop_once.
  rewrite foldl_visit_objects, foldl_visit_touch.
  split_and!; [done| |by apply foldl_touch_conserves].
  intros d. by apply foldl_touch_lookup.
Qed.

(** ** The pass of lines 63-75 *)

Lemma rename_shape_keys_spec tbl rank fuel st :
  table st = tbl → table_ok tbl → blocks_once tbl (key_blocks st) →
  ranked rank (objects st) → deep_enough rank (objects st) fuel →
  ∃ st',
    rename_shape_keys fuel st = Some st' ∧
    objects st' = objects st ∧
    table st' = table st ∧
    (∀ d, key_blocks st' !! d =
          if decide (d ∈ datas (objects st) (seq 0 (length (objects st))))
          then fmap (renamed tbl) <$> key_blocks st !! d
          else key_blocks st !! d) ∧
    (shape_keys_processed st' + pending_total tbl (key_blocks st')
     = pending_total tbl (key_blocks st))%nat.
Proof.
  intros Ht Hok Honce Hr Hfuel. unfold rename_shape_keys.
  destruct (rename_loop_spec tbl rank fuel (with_processed 0 st))
    as (st' & Hrun & Hobj & Htbl & Hkb & Hcons); try done.
  rewrite Hrun. simpl. eexists. split; [done|]. simpl.
  by split_and!.
Qed.

Lemma rename_shape_keys_clean tbl rank fuel st :
  table st = tbl →
  ranked rank (objects st) → deep_enough rank (objects st) fuel →
  (∀ x o d keys, objects st !! x = Some o → ob_data o = Some d →
                 key_blocks st !! d = Some keys → clean tbl keys) →
  rename_shape_keys fuel st
  = Some (print "✅ Processed 0 shape keys" (with_processed 0 st)).
Proof.
  intros Ht Hr Hfuel Hc. unfold rename_shape_keys.
  by rewrite (rename_loop_clean tbl rank).
Qed.

(** What the pass leaves behind an object of the scene. *)
Lemma datas_object objs x o d :
  objs !! x = Some o → ob_data o = Some d →
  d ∈ datas objs (seq 0 (length objs)).
Proof.
  intros Ho Hd. apply elem_of_datas. exists x, o. split; [|done].
  apply elem_of_seq. apply lookup_lt_Some in Ho. lia.
Qed.

(** ** The table of the script *)

Lemma shapekeyMap_ok : table_ok shapekeyMap.
Proof.
  unfold table_ok. apply Forall_forall.
  apply (bool_decide_unpack _). by vm_compute.
Qed.

Lemma shapekeyMap_sources_NoDup : NoDup (sources shapekeyMap).
Proof. apply (bool_decide_unpack _). by vm_compute. Qed.

Lemma unique_blocks_once tbl kb : unique_key_names kb → blocks_once tbl kb.
Proof. intros Hu d keys Hd. apply unique_once. by eapply Hu. Qed.

(** ** The sample scene is well formed *)

Lemma demo_unique_keys : unique_key_names demo_key_blocks.
Proof.
  intros d keys Hd. unfold demo_key_blocks in Hd.
  apply lookup_insert_Some in Hd as [[_ <-]|[_ Hd]].
  { apply (bool_decide_unpack _). by vm_compute. }
  apply lookup_insert_Some in Hd as [[_ <-]|[_ Hd]].
  { apply (bool_decide_unpack _). by vm_compute. }
  by rewrite lookup_empty in Hd.
Qed.

Lemma demo_unique_objects : unique_object_names demo_objects.
Proof. apply (bool_decide_unpack _). by vm_compute. Qed.

Lemma demo_ranked objs :
  ob_children <$> objs = ob_children <$> demo_objects → ranked demo_rank objs.
Proof.
  intros Hch x o c Ho Hc.
  assert ((ob_children <$> objs) !! x = Some (ob_children o)) as Hx
    by (by rewrite list_lookup_fmap, Ho).
  rewrite Hch in Hx.
  destruct x as [|[|[|[|x]]]]; simplify_eq/=; rewrite <-Hx in Hc.
  - repeat (apply elem_of_cons in Hc as [->|Hc]); simpl; try lia.
    by apply elem_of_nil in Hc.
  - by apply elem_of_nil in Hc.
  - by apply elem_of_nil in Hc.
  - by apply elem_of_nil in Hc.
Qed.

Lemma demo_deep objs : deep_enough demo_rank objs 2.
Proof. intros [|x] _; simpl; lia. Qed.

(** ** The claims *)

(** C7.  On a scene where no object's shape keys bear any of the 15 source
    names, the rename pass leaves every shape key as it is, and the count it
    reports is zero. *)
Theorem rename_pass_nothing_to_rename rank fuel st :
  table st = shapekeyMap →
  ranked rank (objects st) → deep_enough rank (objects st) fuel →
  (∀ x o d keys, objects st !! x = Some o → ob_data o = Some d →
                 key_blocks st !! d = Some keys → clean shapekeyMap keys) →
  ∃ st',
    rename_shape_keys fuel st = Some st' ∧
    key_blocks st' = key_blocks st ∧
    shape_keys_processed st' = 0%nat ∧
    stdout st' = (stdout st ++ ["✅ Processed 0 shape keys"])%list.
Proof.
  intros Ht Hr Hfuel Hc.
  rewrite (rename_shape_keys_clean shapekeyMap rank) by done.
  by eexists.
Qed.

Lemma demo_done_clean x o d keys :
  objects demo_done !! x = Some o → ob_data o = Some d →
  key_blocks demo_done !! d = Some keys → clean shapekeyMap keys.
Proof.
  intros _ _ Hd. simpl in Hd.
  apply lookup_insert_Some in Hd as [[_ <-]|[_ Hd]].
  { apply (bool_decide_unpack _). by vm_compute. }
  apply lookup_insert_Some in Hd as [[_ <-]|[_ Hd]].
  { apply (bool_decide_unpack _). by vm_compute. }
  by rewrite lookup_empty in Hd.
Qed.

Lemma rename_pass_nothing_to_rename_demo :
  ∃ st',
    rename_shape_keys 2 demo_done = Some st' ∧
    key_blocks st' = key_blocks demo_done ∧
    shape_keys_processed st' = 0%nat ∧
    stdout st' = ["✅ Processed 0 shape keys"].
Proof.
  apply (rename_pass_nothing_to_rename demo_rank 2 demo_done);
    [reflexivity|by apply demo_ranked|apply demo_deep|apply demo_done_clean].
Defined.

(** C9.  The loop, which goes over every object of the scene and from each
    over its descendants, ends with the same shape keys and the same count
    as the loop that meets each object of the scene once. *)
Theorem rename_loop_refines_once rank fuel st :
  table st = shapekeyMap →
  unique_key_names (key_blocks st) →
  ranked rank (objects st) → deep_enough rank (objects st) fuel →
  ∃ st',
    rename_loop fuel st = Some st' ∧
    key_blocks st' = key_blocks (rename_loop_once st) ∧
    shape_keys_processed st' = shape_keys_processed (rename_loop_once st).
Proof.
  intros Ht Hu Hr Hfuel.
  pose proof shapekeyMap_ok as Hok.
  pose proof (unique_blocks_once shapekeyMap _ Hu) as Honce.
  destruct (rename_loop_spec shapekeyMap rank fuel st)
    as (st' & Hrun & _ & _ & Hkb & Hcons); try done.
  destruct (rename_loop_once_spec shapekeyMap st)
    as (_ & Hkb1 & Hcons1); try done.
  assert (key_blocks st' = key_blocks (rename_loop_once st)) as Heq.
  { apply map_eq. intros d. by rewrite Hkb, Hkb1. }
  exists st'. split_and!; [done|done|].
  rewrite Heq in Hcons. lia.
Qed.

Lemma rename_loop_refines_once_demo :
  ∃ st',
    rename_loop 2 demo = Some st' ∧
    key_blocks st' = key_blocks (rename_loop_once demo) ∧
    shape_keys_processed st' = shape_keys_processed (rename_loop_once demo).
Proof.
  apply (rename_loop_refines_once demo_rank 2 demo);
    [reflexivity|apply demo_unique_keys|by apply demo_ranked|apply demo_deep].
Defined.





(** ** The root *)

Lemma rename_root_key_blocks st : key_blocks (rename_root st) = key_blocks st.
Proof. unfold rename_root. by case_decide. Qed.

Lemma rename_root_table st : table (rename_root st) = table st.
Proof. unfold rename_root. by case_decide. Qed.

Lemma rename_root_absent st :
  "AvatarRoot" ∉ ob_name <$> objects st → rename_root st = st.
Proof.
  intros Hn. apply find_not_found in Hn. unfold rename_root.
  rewrite decide_False; [done|]. by intros [].
Qed.

(** Names apart, the objects stay what they are. *)
Lemma rename_root_lookup st x o' :
  objects (rename_root st) !! x = Some o' →
  ∃ o, objects st !! x = Some o ∧
       ob_children o' = ob_children o ∧ ob_data o' = ob_data o ∧
       (ob_name o' = ob_name o ∨ ob_name o' = "Armature" ∧ ob_name o = "AvatarRoot").
Proof.
  unfold rename_root. case_decide as Hidx; simpl; [|by eauto 10].
  destruct (find_found ob_name _ _ Hidx) as (r & Hr & Hnm & _).
  rewrite list_lookup_alter. case_decide as Hx.
  - subst x. rewrite Hr. simpl. intros [= <-]. exists r. by eauto 10.
  - by eauto 10.
Qed.

Lemma rename_root_length st : length (objects (rename_root st)) = length (objects st).
Proof. unfold rename_root. case_decide; simpl; [|done]. by rewrite length_alter. Qed.

Lemma rename_root_ranked rank st :
  ranked rank (objects st) → ranked rank (objects (rename_root st)).
Proof.
  intros Hr x o' c Ho' Hc.
  destruct (rename_root_lookup _ _ _ Ho') as (o & Ho & Hch & _).
  rewrite Hch in Hc. by eapply Hr.
Qed.

Lemma rename_root_gone st :
  unique_object_names (objects st) →
  "AvatarRoot" ∉ ob_name <$> objects (rename_root st).
Proof.
  intros Hu. unfold rename_root. case_decide as Hidx; simpl.
  - destruct (find_found ob_name _ _ Hidx) as (r & Hr & Hnm & _).
    intros (o' & Ho' & Hin)%list_elem_of_fmap.
    apply list_elem_of_lookup in Hin as [x Hx].
    rewrite list_lookup_alter in Hx. case_decide as Hxi.
    + subst x. rewrite Hr in Hx. by simplify_eq/=.
    + apply Hxi. symmetry.
      eapply (NoDup_lookup _ _ _ "AvatarRoot" Hu);
        rewrite list_lookup_fmap; [rewrite Hx|rewrite Hr]; simpl; congruence.
  - apply find_not_found. lia.
Qed.

(** C4.  Processing a scene that a previous run left renames nothing: after
    the first run no object is named "AvatarRoot" and no shape key of any
    object bears one of the 15 source names, so the second run leaves
    objects and shape keys as they are and counts zero.  Names are distinct
    within a collection before the first run, as the host keeps them. *)
Theorem process_idempotent rank fuel st :
  table st = shapekeyMap →
  unique_object_names (objects st) →
  unique_key_names (key_blocks st) →
  ranked rank (objects st) → deep_enough rank (objects st) fuel →
  ∃ st1,
    process fuel st = Some st1 ∧
    ("AvatarRoot" ∉ ob_name <$> objects st1) ∧
    (∀ x o d keys, objects st1 !! x = Some o → ob_data o = Some d →
                   key_blocks st1 !! d = Some keys → clean shapekeyMap keys) ∧
    ∀ n out,
      ∃ st2,
        process fuel (mkState (objects st1) (key_blocks st1) shapekeyMap n out)
        = Some st2 ∧
        objects st2 = objects st1 ∧
        key_blocks st2 = key_blocks st1 ∧
        shape_keys_processed st2 = 0%nat.
Proof.
  intros Ht Huo Huk Hr Hfuel. unfold process at 1.
  destruct (rename_shape_keys_spec shapekeyMap rank fuel
              (apply_transforms (rename_root st)))
    as (st1 & Hrun & Hobj & _ & Hkb & _).
  { unfold apply_transforms. case_bool_decide; simpl; by rewrite rename_root_table. }
  { apply shapekeyMap_ok. }
  { apply unique_blocks_once. unfold apply_transforms.
    case_bool_decide; simpl; by rewrite rename_root_key_blocks. }
  { unfold apply_transforms. case_bool_decide; simpl; by apply rename_root_ranked. }
  { unfold apply_transforms, deep_enough.
    case_bool_decide; simpl; by rewrite rename_root_length. }
  assert (objects st1 = objects (rename_root st)) as Hobj1.
  { rewrite Hobj. unfold apply_transforms. by case_bool_decide. }
  assert (∀ x o d keys, objects st1 !! x = Some o → ob_data o = Some d →
            key_blocks st1 !! d = Some keys → clean shapekeyMap keys) as Hclean.
  { intros x o d keys Ho Hd Hkeys. specialize (Hkb d).
    rewrite Hobj in Ho.
    rewrite decide_True in Hkb by (by eapply datas_object).
    rewrite Hkeys in Hkb.
    destruct (key_blocks (apply_transforms (rename_root st)) !! d) as [keys0|];
      simplify_eq/=.
    apply clean_renamed, shapekeyMap_ok. }
  assert ("AvatarRoot" ∉ ob_name <$> objects st1) as Hgone.
  { rewrite Hobj1. by apply rename_root_gone. }
  exists st1. split_and!; [done|done|done|].
  intros n out. unfold process.
  rewrite rename_root_absent by done.
  eexists. split.
  - apply (rename_shape_keys_clean shapekeyMap rank).
    + unfold apply_transforms. by case_bool_decide.
    + unfold apply_transforms. case_bool_decide; simpl;
        rewrite Hobj1; by apply rename_root_ranked.
    + unfold apply_transforms, deep_enough. case_bool_decide; simpl;
        rewrite Hobj1, rename_root_length; done.
    + unfold apply_transforms. case_bool_decide; simpl; done.
  - unfold apply_transforms. by case_bool_decide.
Qed.

Lemma process_idempotent_demo :
  ∃ st1,
    process 2 demo = Some st1 ∧
    ("AvatarRoot" ∉ ob_name <$> objects st1) ∧
    ∃ st2,
      process 2 (mkState (objects st1) (key_blocks st1) shapekeyMap 0 []) = Some st2 ∧
      objects st2 = objects st1 ∧
      key_blocks st2 = key_blocks st1 ∧
      shape_keys_processed st2 = 0%nat.
Proof.
  destruct (process_idempotent demo_rank 2 demo)
    as (st1 & Hrun & Hgone & _ & Hagain);
    [reflexivity|apply demo_unique_objects|apply demo_unique_keys
    |by apply demo_ranked|apply demo_deep|].
  exists st1. split_and!; [exact Hrun|exact Hgone|exact (Hagain 0%nat [])].
Defined.

(** ** The whole script *)

Lemma index_None x l : index x l = None ↔ x ∉ l.
Proof.
  induction l as [|y l IH]; simpl.
  - split; [intros _; apply not_elem_of_nil|done].
  - rewrite not_elem_of_cons. case_decide as Hy.
    + split; [done|]. intros [Hn _]. by destruct Hn.
    + destruct (index x l); simpl.
      * split; [done|]. intros [_ Hn]. by apply IH in Hn.
      * split; [|done]. intros _. split; [congruence|by apply IH].
Qed.

Lemma rename_loop_table fuel st st' :
  rename_loop fuel st = Some st' → table st' = table st.
Proof.
  rewrite rename_loop_flat. destruct (mapM _ _) as [ls|]; simpl; [|done].
  intros [= <-]. apply foldl_visit_table.
Qed.

Lemma process_table fuel st st' : process fuel st = Some st' → table st' = table st.
Proof.
  unfold process, rename_shape_keys.
  destruct (rename_loop _ _) as [st1|] eqn:Hloop; simpl; [|done].
  intros [= <-]. simpl. rewrite (rename_loop_table _ _ _ Hloop). simpl.
  unfold apply_transforms. case_bool_decide; simpl; apply rename_root_table.
Qed.

(** On a hierarchy without cycles the steps between import and export end,
    given the fuel. *)
Lemma rename_loop_total rank fuel st :
  ranked rank (objects st) → deep_enough rank (objects st) fuel →
  is_Some (rename_loop fuel st).
Proof.
  intros Hr Hfuel. rewrite rename_loop_flat.
  destruct (mapM_is_Some_2 (traverse fuel (objects st))
              (seq 0 (length (objects st)))) as [ls Hls].
  { apply Forall_forall. intros x Hx. apply (traverse_total rank); [done|].
    apply Hfuel. apply elem_of_seq in Hx. lia. }
  rewrite Hls. by eexists.
Qed.

Lemma process_total rank fuel st :
  ranked rank (objects st) → deep_enough rank (objects st) fuel →
  is_Some (process fuel st).
Proof.
  intros Hr Hfuel. unfold process, rename_shape_keys.
  destruct (rename_loop_total rank fuel
              (with_processed 0 (apply_transforms (rename_root st)))) as [st' Hst'].
  - unfold apply_transforms. case_bool_decide; simpl; by apply rename_root_ranked.
  - unfold apply_transforms, deep_enough.
    case_bool_decide; simpl; by rewrite rename_root_length.
  - rewrite Hst'. by eexists.
Qed.

(** X16.  The script ends whenever what the importer yields has no cycle:
    with a bound on the depth above every rank, a run gives a result. *)
Lemma main_total rank fuel host sys_argv st0 :
  (∀ f sc0 sc, import_scene_gltf host f sc0 = inr sc →
               ranked rank (sc_objects sc) ∧ deep_enough rank (sc_objects sc) fuel) →
  is_Some (main fuel host sys_argv st0).
Proof.
  intros Himp. unfold main.
  destruct (index "--" sys_argv) as [i|]; [|by eexists].
  destruct (drop (i + 1) sys_argv) as [|f rest]; [by eexists|].
  destruct (import_scene_gltf host f _) as [e|sc] eqn:Hsc; [by eexists|].
  destruct (Himp _ _ _ Hsc) as [Hr Hfuel].
  destruct (process_total rank fuel
              (print "✅ Successfully imported GLB file"
                 (with_scene sc
                    (clear_scene
                       (with_table shapekeyMap
                          (print ("🎭 Processing SDK avatar: " +:+ f) st0))))))
    as [st5 Hst5]; [done|done|].
  rewrite Hst5. simpl. destruct (export_scene_gltf host f _); by eexists.
Qed.

(** C2.  The table has exactly 15 pairs, the first ("sil", "viseme_sil"),
    the second ("PP", "viseme_PP"), the last ("ou", "viseme_U"); no step of
    the script writes to it, and a run that got as far as assigning it ends
    with it as assigned. *)
Theorem shapekeyMap_fixed :
  length shapekeyMap = 15%nat ∧
  shapekeyMap !! 0%nat = Some ("sil", "viseme_sil") ∧
  shapekeyMap !! 1%nat = Some ("PP", "viseme_PP") ∧
  last shapekeyMap = Some ("ou", "viseme_U") ∧
  (∀ d st m, table (rename_entry d st m) = table st) ∧
  (∀ st x, table (visit st x) = table st) ∧
  (∀ st, table (rename_root st) = table st) ∧
  (∀ fuel st st', process fuel st = Some st' → table st' = table st) ∧
  (∀ fuel host sys_argv st0 i f rest st out,
     index "--" sys_argv = Some i → drop (i + 1) sys_argv = f :: rest →
     main fuel host sys_argv st0 = Some (st, out) →
     table st = shapekeyMap).
Proof.
  split_and!; try reflexivity.
  - intros. apply rename_entry_table.
  - intros. apply visit_table.
  - apply rename_root_table.
  - apply process_table.
  - intros fuel host sys_argv st0 i f rest st out Hi Hargs. unfold main.
    rewrite Hi, Hargs.
    destruct (import_scene_gltf host f _) as [e|sc]; [by intros [= <- <-]|].
    destruct (process fuel _) as [st5|] eqn:Hproc; simpl; [|done].
    apply process_table in Hproc.
    destruct (export_scene_gltf host f _); by intros [= <- <-].
Qed.

Lemma shapekeyMap_fixed_demo :
  ∃ st out,
    main 2 demo_host ["blender"; "--"; "avatar.glb"] demo = Some (st, out) ∧
    out = Completed ∧ table st = shapekeyMap.
Proof.
  destruct (main 2 demo_host ["blender"; "--"; "avatar.glb"] demo)
    as [[st out]|] eqn:Hmain; [|by vm_compute in Hmain].
  exists st, out. split_and!; [reflexivity| |].
  - vm_compute in Hmain. by injection Hmain as _ <-.
  - apply (proj2 (proj2 (proj2 (proj2 (proj2 (proj2 (proj2 (proj2
             shapekeyMap_fixed)))))))
             2%nat demo_host ["blender"; "--"; "avatar.glb"] demo 1%nat
             "avatar.glb" [] st out); [reflexivity|reflexivity|exact Hmain].
Defined.

(** C10.  The usage check is reached only when the argument vector holds
    the separator "--": without it the script stops at the slicing of line 7
    on an exception nobody catches, having printed nothing and called no
    exit; and whenever it ends otherwise, the separator was there. *)
Theorem usage_check_needs_separator fuel host sys_argv st0 :
  ("--" ∉ sys_argv →
   main fuel host sys_argv st0 = Some (st0, Uncaught "ValueError")) ∧
  (∀ st out, main fuel host sys_argv st0 = Some (st, out) →
             (∀ e, out ≠ Uncaught e) → "--" ∈ sys_argv).
Proof.
  split.
  - intros Hn. apply index_None in Hn. unfold main. by rewrite Hn.
  - intros st out Hmain Hout.
    destruct (decide ("--" ∈ sys_argv)) as [|Hn]; [done|].
    apply index_None in Hn. unfold main in Hmain. rewrite Hn in Hmain.
    simplify_eq. by destruct (Hout "ValueError").
Qed.

Lemma usage_check_needs_separator_demo :
  main 2 demo_host ["blender"; "avatar.glb"] demo = Some (demo, Uncaught "ValueError").
Proof.
  apply (proj1 (usage_check_needs_separator 2 demo_host ["blender"; "avatar.glb"] demo)).
  apply (bool_decide_unpack _). by vm_compute.
Defined.

(** C5.  Started with no argument at all, as in
    [blender --background --python sdk_avatars.py], the script neither
    prints its usage message nor exits with a status of its own: the slicing
    of line 7 raises before the check of lines 9-11 is reached. *)
Theorem main_no_argument_raises fuel host st0 :
  main fuel host ["blender"; "--background"; "--python"; "sdk_avatars.py"] st0
  = Some (st0, Uncaught "ValueError").
Proof. reflexivity. Qed.

(** ** Further properties: the traversal *)

Lemma traverse_sound fuel objs x os y :
  traverse fuel objs x = Some os → y ∈ os → descendant objs x y.
Proof.
  revert x os y. induction fuel as [|fuel IH]; intros x os y; simpl; [done|].
  destruct (objs !! x) as [o|] eqn:Ho.
  - destruct (mapM _ _) as [sub|] eqn:Hsub; simpl; [|done].
    intros [= <-] [->|Hy]%elem_of_cons; [constructor|].
    apply list_elem_of_In, in_concat in Hy as (l & Hl & Hy).
    apply list_elem_of_In, list_elem_of_lookup in Hl as [j Hj].
    apply mapM_Some in Hsub.
    destruct (Forall2_lookup_r _ _ _ _ _ Hsub Hj) as (c & Hc & Hcl).
    apply descendant_child with o c; [done|by eapply list_elem_of_lookup_2|].
    apply (IH c l); [done|by apply list_elem_of_In].
  - intros [= <-] Hy. apply list_elem_of_singleton in Hy as ->. constructor.
Qed.

Lemma traverse_complete fuel objs x os y :
  traverse fuel objs x = Some os → descendant objs x y → y ∈ os.
Proof.
  revert x os y. induction fuel as [|fuel IH]; intros x os y; simpl; [done|].
  destruct (objs !! x) as [o|] eqn:Ho.
  - destruct (mapM _ _) as [sub|] eqn:Hsub; simpl; [|done].
    intros [= <-] Hd. inversion Hd as [|x' o' c y' Ho' Hc Hcy]; subst; [left|].
    right. rewrite Ho in Ho'. injection Ho' as <-.
    apply mapM_Some in Hsub.
    apply list_elem_of_lookup in Hc as [j Hj].
    destruct (Forall2_lookup_l _ _ _ _ _ Hsub Hj) as (l & Hl & Hcl).
    apply list_elem_of_In, in_concat. exists l. split.
    + apply list_elem_of_In. by eapply list_elem_of_lookup_2.
    + apply list_elem_of_In. by apply (IH c).
  - intros [= <-] Hd. inversion Hd as [|x' o' c y' Ho' Hc Hcy]; subst; [left|].
    by rewrite Ho in Ho'.
Qed.

(** X1.  On a hierarchy without cycles the traversal from [x] ends and
    yields [x] first, then exactly the objects that come under [x]: every
    one of them, and nothing else. *)
Theorem traverse_yields_descendants rank fuel objs x :
  ranked rank objs → (rank x < fuel)%nat →
  ∃ os,
    traverse fuel objs x = Some os ∧
    head os = Some x ∧
    ∀ y, y ∈ os ↔ descendant objs x y.
Proof.
  intros Hr Hx. destruct (traverse_total rank objs fuel x Hr Hx) as [os Hos].
  exists os. split_and!; [done| |].
  - destruct fuel as [|fuel]; simpl in Hos; [done|].
    destruct (objs !! x); [|by simplify_eq].
    destruct (mapM _ _); by simplify_eq/=.
  - intros y. split; [by eapply traverse_sound|by eapply traverse_complete].
Qed.

Lemma traverse_yields_descendants_demo :
  ∃ os,
    traverse 2 demo_objects 0 = Some os ∧
    head os = Some 0%nat ∧
    ∀ y, y ∈ os ↔ descendant demo_objects 0 y.
Proof.
  apply (traverse_yields_descendants demo_rank 2 demo_objects 0);
    [by apply demo_ranked|simpl; lia].
Defined.

Lemma traverse_more_fuel fuel fuel' objs x os :
  traverse fuel objs x = Some os → (fuel ≤ fuel')%nat →
  traverse fuel' objs x = Some os.
Proof.
  revert fuel' x os. induction fuel as [|fuel IH]; intros fuel' x os; [done|].
  intros Hos Hle. destruct fuel' as [|fuel']; [lia|]. simpl in *.
  destruct (objs !! x) as [o|]; [|done].
  destruct (mapM (traverse fuel objs) _) as [sub|] eqn:Hsub; simpl in Hos; [|done].
  apply mapM_Some in Hsub.
  rewrite (proj2 (mapM_Some (traverse fuel' objs) (ob_children o) sub)); [done|].
  eapply Forall2_impl; [done|]. intros c l Hc. apply IH; [done|lia].
Qed.

Lemma rename_loop_more_fuel fuel fuel' st st' :
  rename_loop fuel st = Some st' → (fuel ≤ fuel')%nat →
  rename_loop fuel' st = Some st'.
Proof.
  rewrite !rename_loop_flat. intros Hrun Hle.
  destruct (mapM (traverse fuel _) _) as [ls|] eqn:Hls; simpl in Hrun; [|done].
  apply mapM_Some in Hls.
  rewrite (proj2 (mapM_Some (traverse fuel' (objects st)) _ ls)); [done|].
  eapply Forall2_impl; [done|]. intros c l Hc.
  eapply traverse_more_fuel; [exact Hc|exact Hle].
Qed.

(** X2.  What the traversal yields, and what the steps between import and
    export make of a state, do not depend on the bound put on the depth:
    whatever a bound gives, every larger bound gives too. *)
Theorem result_independent_of_fuel fuel fuel' :
  (fuel ≤ fuel')%nat →
  (∀ objs x os, traverse fuel objs x = Some os → traverse fuel' objs x = Some os) ∧
  (∀ st st', process fuel st = Some st' → process fuel' st = Some st').
Proof.
  intros Hle. split.
  - intros objs x os Hos. eapply traverse_more_fuel; [exact Hos|exact Hle].
  - intros st st'. unfold process, rename_shape_keys.
    destruct (rename_loop fuel _) as [st1|] eqn:Hloop; simpl; [|done].
    by rewrite (rename_loop_more_fuel _ _ _ _ Hloop Hle).
Qed.

Lemma result_independent_of_fuel_demo :
  traverse 5 demo_objects 0 = Some [0; 1; 2; 3]%nat.
Proof.
  apply (proj1 (result_independent_of_fuel 2 5 ltac:(lia)) demo_objects 0%nat).
  reflexivity.
Defined.

(** ** Further properties: what the loop keeps *)

(** Whatever every turn of the loop keeps, the loop keeps. *)
Lemma rename_loop_invariant (P : State → Prop) tbl fuel st st' :
  table st = tbl →
  (∀ d s m, m ∈ tbl → P s → P (rename_entry d s m)) →
  P st → rename_loop fuel st = Some st' → P st'.
Proof.
  intros Ht Hstep HP. rewrite rename_loop_flat.
  destruct (mapM _ _) as [ls|]; simpl; [|done]. intros [= <-].
  rewrite foldl_visit_touch. generalize (datas (objects st) (concat ls)).
  intros ds. revert st Ht HP. induction ds as [|d ds IH]; intros st Ht HP; [done|].
  simpl. apply IH; [by rewrite touch_table|].
  unfold touch. rewrite Ht.
  assert (Forall (λ m, m ∈ tbl) tbl) as Hall by (by apply Forall_forall).
  revert Hall. generalize tbl at 2 3. intros ms Hms. revert st Ht HP.
  induction Hms as [|m ms Hm Hms IHms]; intros st Ht HP; [done|].
  simpl. apply IHms; [by rewrite rename_entry_table|by apply Hstep].
Qed.

Lemma printed_renames_refl tbl st : printed_renames tbl st st.
Proof.
  exists []. split_and!; [by rewrite app_nil_r|simpl; lia|constructor].
Qed.

Lemma rename_entry_printed tbl st0 d st m :
  m ∈ tbl → printed_renames tbl st0 st →
  printed_renames tbl st0 (rename_entry d st m).
Proof.
  intros Hm (lines & Hout & Hcount & Hlines). unfold rename_entry.
  destruct (key_blocks st !! d) as [keys|]; [|by exists lines].
  simpl. case_decide; [|by exists lines].
  exists (lines ++ [rename_line m])%list. simpl. split_and!.
  - by rewrite Hout, app_assoc.
  - rewrite Hcount, length_app. simpl. lia.
  - apply Forall_app. split; [done|]. apply Forall_singleton. by exists m.
Qed.

(** X4.  The count the pass reports is the number of rename lines it
    printed: between what was printed before and the report there is
    exactly one line per rename, each for an entry of the table, and the
    report gives their number. *)
Theorem rename_pass_reports_its_renames rank fuel st :
  table st = shapekeyMap →
  ranked rank (objects st) → deep_enough rank (objects st) fuel →
  ∃ st' lines,
    rename_shape_keys fuel st = Some st' ∧
    stdout st' =
      (stdout st ++ lines
         ++ ["✅ Processed " +:+ pretty (length lines) +:+ " shape keys"])%list ∧
    shape_keys_processed st' = length lines ∧
    Forall (λ l, ∃ m, m ∈ shapekeyMap ∧ l = rename_line m) lines.
Proof.
  intros Ht Hr Hfuel. unfold rename_shape_keys.
  destruct (rename_loop_total rank fuel (with_processed 0 st)) as [st1 Hrun];
    [done|done|].
  rewrite Hrun. simpl.
  destruct (rename_loop_invariant
              (printed_renames shapekeyMap (with_processed 0 st))
              shapekeyMap fuel (with_processed 0 st) st1)
    as (lines & Hout & Hcount & Hlines); [done| | |done|].
  { intros d s m. apply rename_entry_printed. }
  { apply printed_renames_refl. }
  simpl in Hout, Hcount. eexists _, lines. split; [done|]. simpl.
  split_and!; [|done|done].
  by rewrite Hout, Hcount, <-app_assoc.
Qed.

Lemma rename_pass_reports_its_renames_demo :
  ∃ st' lines,
    rename_shape_keys 2 demo = Some st' ∧
    stdout st' =
      (lines ++ ["✅ Processed " +:+ pretty (length lines) +:+ " shape keys"])%list ∧
    shape_keys_processed st' = length lines.
Proof.
  destruct (rename_pass_reports_its_renames demo_rank 2 demo)
    as (st' & lines & Hrun & Hout & Hcount & _);
    [reflexivity|by apply demo_ranked|apply demo_deep|].
  exists st', lines. split_and!; [exact Hrun|exact Hout|exact Hcount].
Defined.

(** ** Further properties: the count *)

Lemma pending_clean tbl keys : clean tbl keys → pending tbl keys = 0%nat.
Proof.
  unfold pending, clean. induction 1 as [|k keys Hk Hkeys IH]; [done|].
  rewrite filter_cons. by rewrite decide_False.
Qed.

Lemma pending_total_clean tbl kb :
  (∀ d keys, kb !! d = Some keys → clean tbl keys) → pending_total tbl kb = 0%nat.
Proof.
  intros Hc. unfold pending_total.
  assert (Forall (λ p, pending tbl p.2 = 0%nat) (map_to_list kb)) as Hall.
  { apply Forall_forall. intros [d keys] Hin. apply elem_of_map_to_list in Hin.
    simpl. apply pending_clean. by eapply Hc. }
  induction Hall as [|p l Hp Hl IH]; [done|]. simpl. lia.
Qed.

(** X5.  Whatever the names of the keys, the count the pass ends with is
    the number of keys that bore a source name before it less the number of
    those that still bear one after it; so it never exceeds the number of
    keys that had a source name. *)
Theorem rename_pass_count_balance rank fuel st :
  table st = shapekeyMap →
  ranked rank (objects st) → deep_enough rank (objects st) fuel →
  ∃ st',
    rename_shape_keys fuel st = Some st' ∧
    (shape_keys_processed st' + pending_total shapekeyMap (key_blocks st')
     = pending_total shapekeyMap (key_blocks st))%nat ∧
    (shape_keys_processed st' ≤ pending_total shapekeyMap (key_blocks st))%nat.
Proof.
  intros Ht Hr Hfuel. unfold rename_shape_keys.
  destruct (rename_loop_total rank fuel (with_processed 0 st)) as [st1 Hrun];
    [done|done|].
  rewrite Hrun. simpl. eexists. split; [done|]. simpl.
  rewrite rename_loop_flat in Hrun.
  destruct (mapM _ _) as [ls|]; simplify_eq/=.
  rewrite foldl_visit_touch.
  pose proof (foldl_touch_conserves shapekeyMap (with_processed 0 st)
                (datas (objects st) (concat ls)) Ht shapekeyMap_ok) as Hcons.
  change (objects (with_processed 0 st)) with (objects st).
  simpl in Hcons. split; [exact Hcons|lia].
Qed.

Lemma rename_pass_count_balance_demo :
  ∃ st',
    rename_shape_keys 2 demo = Some st' ∧
    (shape_keys_processed st' ≤ pending_total shapekeyMap (key_blocks demo))%nat.
Proof.
  destruct (rename_pass_count_balance demo_rank 2 demo)
    as (st' & Hrun & _ & Hle);
    [reflexivity|by apply demo_ranked|apply demo_deep|].
  exists st'. split; [exact Hrun|exact Hle].
Defined.

(** X6.  When key names are distinct within each block and every block
    belongs to some object of the scene, the count is exactly the number of
    keys that bore a source name, each counted once however many objects
    share its block and however often the traversal comes by; and no key
    bears a source name afterwards. *)
Theorem rename_pass_counts_each_key_once rank fuel st :
  table st = shapekeyMap →
  unique_key_names (key_blocks st) → no_orphans st →
  ranked rank (objects st) → deep_enough rank (objects st) fuel →
  ∃ st',
    rename_shape_keys fuel st = Some st' ∧
    shape_keys_processed st' = pending_total shapekeyMap (key_blocks st) ∧
    pending_total shapekeyMap (key_blocks st') = 0%nat.
Proof.
  intros Ht Hu Hno Hr Hfuel.
  destruct (rename_shape_keys_spec shapekeyMap rank fuel st)
    as (st' & Hrun & _ & _ & Hkb & Hcons);
    [done|apply shapekeyMap_ok|by apply unique_blocks_once|done|done|].
  assert (pending_total shapekeyMap (key_blocks st') = 0%nat) as Hzero.
  { apply pending_total_clean. intros d keys' Hd'. rewrite Hkb in Hd'.
    destruct (key_blocks st !! d) as [keys|] eqn:Hd;
      [|by destruct (decide _)].
    destruct (Hno d keys Hd) as (x & o & Ho & Hdata).
    rewrite decide_True in Hd' by (by eapply datas_object).
    simpl in Hd'. injection Hd' as <-. apply clean_renamed, shapekeyMap_ok. }
  exists st'. split_and!; [done|lia|done].
Qed.

Lemma demo_no_orphans : no_orphans demo.
Proof.
  intros d keys Hd. simpl in Hd. unfold demo_key_blocks in Hd.
  apply lookup_insert_Some in Hd as [[<- _]|[_ Hd]].
  { by exists 1%nat, (mkObject "Head" [] (Some 7%nat)). }
  apply lookup_insert_Some in Hd as [[<- _]|[_ Hd]].
  { by exists 3%nat, (mkObject "Body" [] (Some 9%nat)). }
  by rewrite lookup_empty in Hd.
Qed.

Lemma rename_pass_counts_each_key_once_demo :
  ∃ st',
    rename_shape_keys 2 demo = Some st' ∧
    shape_keys_processed st' = pending_total shapekeyMap (key_blocks demo).
Proof.
  destruct (rename_pass_counts_each_key_once demo_rank 2 demo)
    as (st' & Hrun & Hcount & _);
    [reflexivity|apply demo_unique_keys|apply demo_no_orphans
    |by apply demo_ranked|apply demo_deep|].
  exists st'. split; [exact Hrun|exact Hcount].
Defined.

(** ** Further properties: distinct names *)

Lemma renamed_name tbl k : sk_name (renamed tbl k) = rename_name tbl (sk_name k).
Proof.
  unfold renamed, rename_name. by destruct (target_of tbl (sk_name k)).
Qed.

Lemma same_target_same_source (tbl : list (string * string)) a b t :
  NoDup (targets tbl) → (a, t) ∈ tbl → (b, t) ∈ tbl → a = b.
Proof.
  unfold targets. induction tbl as [|[s t'] tbl IH]; simpl.
  - intros _ H. by apply elem_of_nil in H.
  - intros [Ht' Hnd]%NoDup_cons Ha Hb.
    apply elem_of_cons in Ha as [Ha|Ha]; apply elem_of_cons in Hb as [Hb|Hb].
    + congruence.
    + injection Ha as -> ->. destruct Ht'. apply list_elem_of_fmap. by exists (b, t').
    + injection Hb as -> ->. destruct Ht'. apply list_elem_of_fmap. by exists (a, t').
    + by apply IH.
Qed.

Lemma renamed_NoDup tbl keys :
  NoDup (targets tbl) →
  NoDup (sk_name <$> keys) →
  Forall (λ k, sk_name k ∉ targets tbl) keys →
  NoDup (sk_name <$> (renamed tbl <$> keys)).
Proof.
  intros Hnt Hnd Hfresh. rewrite <-list_fmap_compose.
  rewrite (list_fmap_ext (sk_name ∘ renamed tbl) (rename_name tbl ∘ sk_name) keys)
    by (intros; simpl; by rewrite renamed_name).
  rewrite list_fmap_compose. apply NoDup_fmap_2_strong; [|done].
  assert (∀ n, n ∈ sk_name <$> keys → n ∉ targets tbl) as Hfresh'.
  { intros n (k & -> & Hk)%list_elem_of_fmap. rewrite Forall_forall in Hfresh.
    by apply Hfresh. }
  assert (∀ n t, target_of tbl n = Some t → t ∈ targets tbl) as Htgt.
  { intros n t Hn. apply target_of_Some in Hn. unfold targets.
    apply list_elem_of_fmap. by exists (n, t). }
  intros n1 n2 Hn1 Hn2. unfold rename_name.
  destruct (target_of tbl n1) as [t1|] eqn:E1;
    destruct (target_of tbl n2) as [t2|] eqn:E2; simpl; intros Heq.
  - subst t2. apply target_of_Some in E1, E2.
    by eapply same_target_same_source.
  - subst n2. destruct (Hfresh' t1 Hn2). by eapply Htgt.
  - subst n1. destruct (Hfresh' t2 Hn1). by eapply Htgt.
  - done.
Qed.

(** X7.  When key names are distinct within each block and no key bears a
    target name yet, key names are still distinct within each block after
    the rename pass: no assignment of the pass gives a key a name another
    key of its block has. *)
Theorem rename_pass_keeps_names_distinct rank fuel st :
  table st = shapekeyMap →
  unique_key_names (key_blocks st) →
  no_target_names shapekeyMap (key_blocks st) →
  ranked rank (objects st) → deep_enough rank (objects st) fuel →
  ∃ st',
    rename_shape_keys fuel st = Some st' ∧
    unique_key_names (key_blocks st').
Proof.
  intros Ht Hu Hfresh Hr Hfuel.
  destruct (rename_shape_keys_spec shapekeyMap rank fuel st)
    as (st' & Hrun & _ & _ & Hkb & _);
    [done|apply shapekeyMap_ok|by apply unique_blocks_once|done|done|].
  exists st'. split; [done|]. intros d keys' Hd'. rewrite Hkb in Hd'.
  destruct (key_blocks st !! d) as [keys|] eqn:Hd; [|by destruct (decide _)].
  destruct (decide _); simpl in Hd'; injection Hd' as <-; [|by eapply Hu].
  apply renamed_NoDup; [|by eapply Hu|by eapply Hfresh].
  apply (bool_decide_unpack _). by vm_compute.
Qed.

Lemma demo_fresh_no_target_names :
  unique_key_names (key_blocks demo_fresh) ∧
  no_target_names shapekeyMap (key_blocks demo_fresh).
Proof.
  split; intros d keys Hd; simpl in Hd.
  - apply lookup_insert_Some in Hd as [[_ <-]|[_ Hd]].
    { apply (bool_decide_unpack _). by vm_compute. }
    apply lookup_insert_Some in Hd as [[_ <-]|[_ Hd]].
    { apply (bool_decide_unpack _). by vm_compute. }
    by rewrite lookup_empty in Hd.
  - apply lookup_insert_Some in Hd as [[_ <-]|[_ Hd]].
    { apply (bool_decide_unpack _). by vm_compute. }
    apply lookup_insert_Some in Hd as [[_ <-]|[_ Hd]].
    { apply (bool_decide_unpack _). by vm_compute. }
    by rewrite lookup_empty in Hd.
Qed.

Lemma rename_pass_keeps_names_distinct_demo :
  ∃ st',
    rename_shape_keys 2 demo_fresh = Some st' ∧
    unique_key_names (key_blocks st').
Proof.
  apply (rename_pass_keeps_names_distinct demo_rank 2 demo_fresh);
    [reflexivity|apply demo_fresh_no_target_names|apply demo_fresh_no_target_names
    |by apply demo_ranked|apply demo_deep].
Defined.

(** ** Further properties: the root and its transforms *)

Lemma alter_const_NoDup (l : list string) i y :
  NoDup l → y ∉ l → NoDup (alter (λ _, y) i l).
Proof.
  revert i. induction l as [|x l IH]; intros i Hnd Hy; [done|].
  apply NoDup_cons in Hnd as [Hx Hnd]. apply not_elem_of_cons in Hy as [Hyx Hy].
  destruct i as [|i].
  - change (NoDup (y :: l)). by apply NoDup_cons.
  - change (NoDup (x :: alter (λ _, y) i l)). apply NoDup_cons.
    split; [|by apply IH].
    intros Hin. apply list_elem_of_lookup in Hin as [j Hj].
    rewrite list_lookup_alter in Hj. case_decide.
    + destruct (l !! i); simplify_eq/=.
    + apply Hx. by eapply list_elem_of_lookup_2.
Qed.

(** X8.  When object names are distinct and none is "Armature", they are
    still distinct after the root has been renamed; the step changes
    neither the number of objects nor any object's children or data. *)
Theorem rename_root_keeps_names_distinct st :
  unique_object_names (objects st) →
  "Armature" ∉ ob_name <$> objects st →
  unique_object_names (objects (rename_root st)) ∧
  length (objects (rename_root st)) = length (objects st) ∧
  ob_children <$> objects (rename_root st) = ob_children <$> objects st ∧
  ob_data <$> objects (rename_root st) = ob_data <$> objects st.
Proof.
  intros Hu Hn. split_and!.
  - unfold rename_root, unique_object_names in *. case_decide; simpl; [|done].
    rewrite (list_fmap_alter ob_name _ (λ _, "Armature"))
      by (by apply Forall_forall).
    by apply alter_const_NoDup.
  - apply rename_root_length.
  - unfold rename_root. case_decide; simpl; [|done].
    rewrite (list_fmap_alter ob_children _ id) by (by apply Forall_forall).
    by rewrite list_alter_id.
  - unfold rename_root. case_decide; simpl; [|done].
    rewrite (list_fmap_alter ob_data _ id) by (by apply Forall_forall).
    by rewrite list_alter_id.
Qed.

Lemma rename_root_keeps_names_distinct_demo :
  unique_object_names (objects (rename_root demo)).
Proof.
  apply (rename_root_keeps_names_distinct demo).
  - apply demo_unique_objects.
  - apply (bool_decide_unpack _). by vm_compute.
Defined.

(** ** Further properties: the whole script *)

Lemma index_first x pre l : x ∉ pre → index x (pre ++ x :: l) = Some (length pre).
Proof.
  induction pre as [|y pre IH]; simpl.
  - intros _. by rewrite decide_True.
  - intros [Hy Hpre]%not_elem_of_cons. rewrite decide_False by congruence.
    by rewrite IH.
Qed.

Lemma drop_after_separator (pre : list string) x l :
  drop (length pre + 1) (pre ++ x :: l) = l.
Proof. by rewrite drop_app_add. Qed.

(** X10.  The script takes as its input file the first argument after the
    first "--" and looks at nothing else: what stands before that "--" and
    what follows the file name make no difference to the run.  With nothing
    after the first "--" it prints the usage line and exits with status 1,
    having done nothing else. *)
Theorem main_reads_first_argument fuel host pre f rest st0 :
  "--" ∉ pre →
  main fuel host (pre ++ "--" :: f :: rest) st0 = main fuel host ["--"; f] st0 ∧
  main fuel host (pre ++ ["--"]) st0 = Some (print usage st0, SystemExit 1).
Proof.
  intros Hpre. split.
  - unfold main at 1. rewrite (index_first _ pre) by done.
    by rewrite drop_after_separator.
  - unfold main. rewrite (index_first _ pre) by done.
    by rewrite drop_after_separator.
Qed.

Lemma main_reads_first_argument_demo :
  main 2 demo_host ["blender"; "--background"; "--"; "a.glb"; "--"; "b.glb"] demo
  = main 2 demo_host ["--"; "a.glb"] demo.
Proof.
  apply (proj1 (main_reads_first_argument 2 demo_host ["blender"; "--background"]
                  "a.glb" ["--"; "b.glb"] demo
                  ltac:(apply (bool_decide_unpack _); by vm_compute))).
Defined.

(** X11.  When the import fails the script stops there, whatever the bound
    on the depth and whatever the exporter would do: it exits with status 1
    having printed, after its first line, only the line that carries the
    importer's exception text; the counter and the table of the later steps
    play no part. *)
Theorem import_failure_stops_the_run fuel host pre f rest st0 e :
  "--" ∉ pre →
  import_scene_gltf host f (mkScene [] (key_blocks st0)) = inl e →
  ∃ st,
    main fuel host (pre ++ "--" :: f :: rest) st0 = Some (st, SystemExit 1) ∧
    stdout st = (stdout st0 ++ ["🎭 Processing SDK avatar: " +:+ f;
                                "❌ Failed to import GLB file: " +:+ e])%list ∧
    shape_keys_processed st = shape_keys_processed st0.
Proof.
  intros Hpre Himp. unfold main.
  rewrite (index_first _ pre) by done. rewrite drop_after_separator.
  change (scene_of (clear_scene (with_table shapekeyMap
            (print ("🎭 Processing SDK avatar: " +:+ f) st0))))
    with (mkScene [] (key_blocks st0)).
  rewrite Himp. eexists. split; [done|]. simpl. by rewrite <-app_assoc.
Qed.

Lemma import_failure_stops_the_run_demo :
  ∃ st,
    main 0 (mkHost (λ _ _, inl "no such file") (λ _ _, None))
      ["blender"; "--"; "missing.glb"] demo = Some (st, SystemExit 1) ∧
    stdout st = ["🎭 Processing SDK avatar: missing.glb";
                 "❌ Failed to import GLB file: no such file"] ∧
    shape_keys_processed st = 0%nat.
Proof.
  apply (import_failure_stops_the_run 0
           (mkHost (λ _ _, inl "no such file") (λ _ _, None))
           ["blender"] "missing.glb" [] demo "no such file").
  - apply (bool_decide_unpack _). by vm_compute.
  - reflexivity.
Defined.

Lemma main_total_demo :
  is_Some (main 2 demo_host ["blender"; "--"; "avatar.glb"] demo).
Proof.
  apply (main_total demo_rank 2 demo_host ["blender"; "--"; "avatar.glb"] demo).
  intros f sc0 sc [= <-]. split; [by apply demo_ranked|apply demo_deep].
Defined.

(** ** Further properties: the traversal of a forest *)

Lemma descendant_rank rank objs x y :
  ranked rank objs → descendant objs x y → (rank y ≤ rank x)%nat.
Proof.
  intros Hr. induction 1 as [x|x o c y Ho Hc _ IH]; [done|].
  specialize (Hr x o c Ho Hc). lia.
Qed.

Lemma descendant_trans objs x y z :
  descendant objs x y → descendant objs y z → descendant objs x z.
Proof.
  induction 1 as [x|x o c y Ho Hc _ IH]; [done|].
  intros Hz. eapply descendant_child; [done|done|by apply IH].
Qed.

(** A descendant other than the root is the child of a descendant. *)
Lemma descendant_last objs x y :
  descendant objs x y →
  x = y ∨ ∃ p o, descendant objs x p ∧ objs !! p = Some o ∧ y ∈ ob_children o.
Proof.
  induction 1 as [x|x o c y Ho Hc Hcy IH]; [by left|]. right.
  destruct IH as [->|(p & o' & Hp & Ho' & Hy)].
  - exists x, o. split_and!; [constructor|done|done].
  - exists p, o'. split_and!; [|done|done].
    by eapply descendant_child.
Qed.

(** In a forest, two objects above the same object are one above the
    other. *)
Lemma descendant_comparable objs a b y :
  forest objs → descendant objs a y → descendant objs b y →
  descendant objs a b ∨ descendant objs b a.
Proof.
  intros [_ Hparent] Ha. revert b.
  induction Ha as [a|a o c y Ho Hc Hcy IH]; intros b Hb; [by right|].
  destruct (IH b Hb) as [Hcb|Hbc].
  - left. by eapply descendant_child.
  - destruct (descendant_last _ _ _ Hbc) as [->|(p & o' & Hp & Ho' & Hc')].
    + left. eapply descendant_child; [done|done|constructor].
    + right. by rewrite (Hparent a p o o' c Ho Ho' Hc Hc').
Qed.

Lemma traversals_NoDup rank fuel objs x o cs sub :
  ranked rank objs → forest objs →
  objs !! x = Some o →
  (∀ c, c ∈ cs → c ∈ ob_children o) → NoDup cs →
  Forall2 (λ c l, traverse fuel objs c = Some l ∧ NoDup l) cs sub →
  NoDup (concat sub).
Proof.
  intros Hr Hf Ho Hcs Hnd Hsub.
  induction Hsub as [|c l cs sub [Hl Hndl] Hsub IH]; simpl; [constructor|].
  apply NoDup_cons in Hnd as [Hc Hnd].
  apply NoDup_app. split_and!; [done| |].
  - intros y Hy Hy'.
    apply list_elem_of_In, in_concat in Hy' as (l' & Hl' & Hyl').
    apply list_elem_of_In, list_elem_of_lookup in Hl' as [j Hj].
    destruct (Forall2_lookup_r _ _ _ _ _ Hsub Hj) as (c' & Hc' & Hl'' & _).
    apply list_elem_of_In in Hyl'.
    pose proof (traverse_sound _ _ _ _ _ Hl Hy) as Hcy.
    pose proof (traverse_sound _ _ _ _ _ Hl'' Hyl') as Hc'y.
    assert (c' ∈ cs) as Hc'in by (by eapply list_elem_of_lookup_2).
    assert (c ≠ c') as Hne by (by intros ->).
    assert (∀ a b, a ∈ ob_children o → b ∈ ob_children o → a ≠ b →
                   ¬ descendant objs a b) as Hno.
    { intros a b Ha Hb Hab Hdesc.
      destruct (descendant_last _ _ _ Hdesc) as [->|(p & o' & Hp & Ho' & Hbp)];
        [done|].
      destruct Hf as [_ Hparent].
      rewrite <-(Hparent x p o o' b Ho Ho' Hb Hbp) in Hp.
      pose proof (descendant_rank rank _ _ _ Hr Hp).
      specialize (Hr x o a Ho Ha). lia. }
    destruct (descendant_comparable _ _ _ _ Hf Hcy Hc'y) as [Hd|Hd].
    + apply (Hno c c'); [apply Hcs; left|apply Hcs; by right|done|done].
    + apply (Hno c' c); [apply Hcs; by right|apply Hcs; left|done|done].
  - apply IH; [|done]. intros c0 Hc0. apply Hcs. by right.
Qed.

Lemma traverse_NoDup rank fuel objs x os :
  ranked rank objs → forest objs →
  traverse fuel objs x = Some os → NoDup os.
Proof.
  intros Hr Hf. revert x os. induction fuel as [|fuel IH]; intros x os; [done|].
  simpl. destruct (objs !! x) as [o|] eqn:Ho.
  - destruct (mapM _ _) as [sub|] eqn:Hsub; simpl; [|done]. intros [= <-].
    apply mapM_Some in Hsub. apply NoDup_cons. split.
    + intros Hin. apply list_elem_of_In, in_concat in Hin as (l & Hl & Hx).
      apply list_elem_of_In, list_elem_of_lookup in Hl as [j Hj].
      destruct (Forall2_lookup_r _ _ _ _ _ Hsub Hj) as (c & Hc & Hcl).
      apply list_elem_of_In in Hx.
      pose proof (traverse_sound _ _ _ _ _ Hcl Hx) as Hcx.
      pose proof (descendant_rank rank _ _ _ Hr Hcx).
      apply list_elem_of_lookup_2 in Hc. specialize (Hr x o c Ho Hc). lia.
    + apply (traversals_NoDup rank fuel objs x o (ob_children o)); try done.
      * destruct Hf as [Hf _]. by eapply Hf.
      * eapply Forall2_impl; [done|]. intros c l Hc. split; [done|exact (IH c l Hc)].
  - intros [= <-]. apply NoDup_singleton.
Qed.

(** X13.  On a forest the traversal from [x] yields every object under [x]
    exactly once: within one traversal no object comes twice. *)
Theorem traverse_yields_each_once rank fuel objs x :
  ranked rank objs → forest objs → (rank x < fuel)%nat →
  ∃ os,
    traverse fuel objs x = Some os ∧
    NoDup os ∧
    ∀ y, y ∈ os ↔ descendant objs x y.
Proof.
  intros Hr Hf Hx. destruct (traverse_total rank objs fuel x Hr Hx) as [os Hos].
  exists os. split_and!; [done|by eapply traverse_NoDup|].
  intros y. split; [by eapply traverse_sound|by eapply traverse_complete].
Qed.

Lemma demo_forest : forest demo_objects.
Proof.
  split.
  - intros x o Ho. destruct x as [|[|[|[|x]]]]; simplify_eq/=;
      apply (bool_decide_unpack _); by vm_compute.
  - intros x1 x2 o1 o2 c Ho1 Ho2 Hc1 Hc2.
    destruct x1 as [|[|[|[|x1]]]]; simplify_eq/=;
      try (by apply elem_of_nil in Hc1).
    destruct x2 as [|[|[|[|x2]]]]; simplify_eq/=;
      try (by apply elem_of_nil in Hc2). done.
Qed.

Lemma traverse_yields_each_once_demo :
  ∃ os, traverse 2 demo_objects 0 = Some os ∧ NoDup os.
Proof.
  destruct (traverse_yields_each_once demo_rank 2 demo_objects 0)
    as (os & Hos & Hnd & _);
    [by apply demo_ranked|apply demo_forest|simpl; lia|].
  exists os. split; [exact Hos|exact Hnd].
Defined.

(** ** Further properties: the output of a run *)

Lemma process_appends fuel st st' :
  process fuel st = Some st' →
  ∃ lines, stdout st' = (stdout st ++ lines)%list.
Proof.
  unfold process, rename_shape_keys.
  destruct (rename_loop _ _) as [st1|] eqn:Hloop; simpl; [|done].
  intros [= <-]. simpl.
  destruct (rename_loop_invariant
              (printed_renames (table st)
                 (with_processed 0 (apply_transforms (rename_root st))))
              (table st) fuel
              (with_processed 0 (apply_transforms (rename_root st))) st1)
    as (lines & Hout & _); [| | |done|].
  { simpl. unfold apply_transforms. case_bool_decide; simpl; apply rename_root_table. }
  { intros d s m. apply rename_entry_printed. }
  { apply printed_renames_refl. }
  rewrite Hout. simpl. unfold apply_transforms, rename_root.
  case_bool_decide; case_decide; simpl; rewrite <-?app_assoc; by eexists.
Qed.

(** X14.  A run that falls off the end of the file has printed, after
    whatever was printed before it, first the line that names the input
    file and the line of the successful import, and last the line of the
    successful export and the closing line; the steps in between only added
    lines of their own. *)
Theorem completed_run_output fuel host sys_argv st0 st :
  main fuel host sys_argv st0 = Some (st, Completed) →
  ∃ i f rest middle,
    index "--" sys_argv = Some i ∧
    drop (i + 1) sys_argv = f :: rest ∧
    stdout st =
      (stdout st0
         ++ ["🎭 Processing SDK avatar: " +:+ f; "✅ Successfully imported GLB file"]
         ++ middle
         ++ ["✅ Successfully exported adapted GLB file";
             "🎉 SDK avatar adaptation complete!"])%list.
Proof.
  unfold main. destruct (index "--" sys_argv) as [i|] eqn:Hi; [|done].
  destruct (drop (i + 1) sys_argv) as [|f rest] eqn:Hargs; [done|].
  destruct (import_scene_gltf host f _) as [e|sc]; [done|].
  destruct (process fuel _) as [st5|] eqn:Hproc; simpl; [|done].
  destruct (export_scene_gltf host f _); [done|]. intros [= <-].
  destruct (process_appends _ _ _ Hproc) as (middle & Hout).
  exists i, f, rest, middle. split_and!; [done|done|].
  simpl. rewrite Hout. simpl. by rewrite <-!app_assoc.
Qed.

Lemma completed_run_output_demo :
  ∃ st f middle,
    main 2 demo_host ["blender"; "--"; "avatar.glb"] demo = Some (st, Completed) ∧
    stdout st =
      (["🎭 Processing SDK avatar: " +:+ f; "✅ Successfully imported GLB file"]
         ++ middle
         ++ ["✅ Successfully exported adapted GLB file";
             "🎉 SDK avatar adaptation complete!"])%list.
Proof.
  destruct (main 2 demo_host ["blender"; "--"; "avatar.glb"] demo)
    as [[st out]|] eqn:Hmain; [|by vm_compute in Hmain].
  assert (out = Completed) as ->.
  { vm_compute in Hmain. by injection Hmain as _ <-. }
  destruct (completed_run_output 2 demo_host ["blender"; "--"; "avatar.glb"]
              demo st Hmain) as (i & f & rest & middle & _ & _ & Hout).
  exists st, f, middle. split; [reflexivity|exact Hout].
Defined.

(** ** The host's rule for names *)

Lemma prefix_refl n : String.prefix n n = true.
Proof. induction n as [|a n IH]; simpl; [done|]. by destruct (Ascii.ascii_dec a a). Qed.

Lemma prefix_append n x : String.prefix n (n +:+ x) = true.
Proof.
  induction n as [|a n IH]; simpl; [by destruct x|].
  by destruct (Ascii.ascii_dec a a).
Qed.

(** A name that is free is stored as it is. *)
Lemma host_unique_name_free others n :
  n ∉ others → host_unique_name others n = n.
Proof. intros Hn. unfold host_unique_name. by rewrite bool_decide_eq_false_2. Qed.

(** Whatever the host stores begins with the name assigned. *)
Lemma host_unique_name_prefix others n :
  String.prefix n (host_unique_name others n) = true.
Proof.
  unfold host_unique_name. case_bool_decide; [|apply prefix_refl].
  destruct (head _) as [c|] eqn:Hc; simpl; [|apply prefix_refl].
  apply head_Some_elem_of, list_elem_of_filter in Hc as [_ Hc].
  apply list_elem_of_fmap in Hc as (k & -> & _). apply prefix_append.
Qed.

(** ** One block of keys under the host's rule *)

(** A turn leaves the block alone, or gives the first key that bears the
    source name the name the host makes of the target. *)
Lemma host_apply_entry_cases keys m :
  (find sk_name m.1 keys = -1 ∧ host_apply_entry keys m = keys) ∨
  ∃ idx x,
    find sk_name m.1 keys = Z.of_nat idx ∧
    keys !! idx = Some x ∧ sk_name x = m.1 ∧
    host_apply_entry keys m
    = alter (set_sk_name (host_unique_name (sk_name <$> delete idx keys) m.2)) idx keys.
Proof.
  unfold host_apply_entry, host_set_key_name.
  destruct (decide (find sk_name m.1 keys ≠ -1)) as [Hidx|Hidx].
  - right. destruct (find_found sk_name _ _ Hidx) as (x & Hx & Hnm & _).
    exists (Z.to_nat (find sk_name m.1 keys)), x. split_and!; try done.
    unfold find in *. rewrite find_from_list_find in *.
    destruct (list_find _ keys) as [[j y]|]; [lia|done].
  - left. split; [lia|done].
Qed.

(** A key that bears no source name stays as it is through a turn. *)
Lemma host_apply_entry_frame tbl keys m j k :
  m ∈ tbl → keys !! j = Some k → sk_name k ∉ sources tbl →
  host_apply_entry keys m !! j = Some k.
Proof.
  intros Hm Hj Hk.
  destruct (host_apply_entry_cases keys m) as [[_ ->]|(idx & x & _ & Hx & Hnm & ->)];
    [done|].
  rewrite list_lookup_alter_ne; [done|]. intros ->.
  rewrite Hj in Hx. injection Hx as ->. apply Hk. rewrite Hnm.
  unfold sources. apply list_elem_of_fmap. by exists m.
Qed.

Lemma host_apply_entry_length keys m :
  length (host_apply_entry keys m) = length keys.
Proof.
  destruct (host_apply_entry_cases keys m) as [[_ ->]|(idx & x & _ & _ & _ & ->)];
    [done|]. by rewrite length_alter.
Qed.

Lemma target_in_targets (tbl : list (string * string)) m : m ∈ tbl → m.2 ∈ targets tbl.
Proof. intros Hm. unfold targets. apply list_elem_of_fmap. by exists m. Qed.

Lemma source_in_sources (tbl : list (string * string)) m : m ∈ tbl → m.1 ∈ sources tbl.
Proof. intros Hm. unfold sources. apply list_elem_of_fmap. by exists m. Qed.

Lemma key_done_frame tbl t i dat keys m :
  table_ok tbl → m ∈ tbl → t ∈ targets tbl →
  key_done t i dat keys → key_done t i dat (host_apply_entry keys m).
Proof.
  intros Hok Hm Ht Hdone. apply (host_apply_entry_frame tbl); [done|done|].
  simpl. by apply Hok.
Qed.

(** A pending key is renamed to its target by the turn of its entry, and
    stays pending through the turn of any other. *)
Lemma key_pending_step tbl s t i dat keys m :
  table_host_ok tbl → (s, t) ∈ tbl → m ∈ tbl →
  key_pending s t i dat keys →
  (m.1 = s → key_done t i dat (host_apply_entry keys m)) ∧
  (m.1 ≠ s → key_pending s t i dat (host_apply_entry keys m)).
Proof.
  intros (Hok & Hns & Hnt & Hts & Htt) Hst Hm (Hi & Honce & Hfree).
  destruct (host_apply_entry_cases keys m)
    as [[Hnone ->]|(idx & x & Hfind & Hx & Hnm & ->)].
  { split; [|done]. intros Hs. apply find_not_found in Hnone. destruct Hnone.
    apply list_elem_of_fmap. exists (mkShapeKey s dat).
    split; [done|]. by eapply list_elem_of_lookup_2. }
  split.
  - intros Hs. rewrite Hs in Hnm.
    assert (idx = i) as -> by (by apply (Honce idx i x (mkShapeKey s dat))).
    rewrite Hi in Hx. injection Hx as <-.
    assert (m.2 = t) as ->.
    { pose proof (target_of_elem _ _ _ Hns Hst) as E1.
      destruct m as [s' t']. simpl in *. subst s'.
      pose proof (target_of_elem _ _ _ Hns Hm) as E2. congruence. }
    unfold key_done. rewrite list_lookup_alter_eq, Hi. simpl.
    rewrite host_unique_name_free; [done|].
    intros Hin. apply Hfree.
    apply list_elem_of_fmap in Hin as (k & -> & Hk).
    apply list_elem_of_fmap. exists k. split; [done|].
    by eapply list_elem_of_delete_inv.
  - intros Hs.
    assert (idx ≠ i) as Hne.
    { intros ->. rewrite Hi in Hx. injection Hx as <-. by simpl in Hnm. }
    pose proof (host_unique_name_prefix (sk_name <$> delete idx keys) m.2) as Hpre.
    set (u := host_unique_name (sk_name <$> delete idx keys) m.2) in *.
    split_and!.
    + by rewrite list_lookup_alter_ne.
    + intros j1 j2 k1 k2. rewrite !list_lookup_alter.
      intros H1 H2 Hk1 Hk2.
      assert (∀ j k, (if decide (idx = j) then set_sk_name u <$> keys !! idx
                      else keys !! j) = Some k → sk_name k = s →
                     keys !! j = Some k) as Hback.
      { intros j k Hj Hk. case_decide; [|done]. subst j. rewrite Hx in Hj.
        simpl in Hj. injection Hj as <-. simpl in Hk. subst u.
        rewrite Hk in Hpre. rewrite (Hts m.2 s) in Hpre; [done| |].
        - by apply target_in_targets.
        - apply source_in_sources in Hst. done. }
      apply (Honce j1 j2 k1 k2); by eauto.
    + intros Hin. apply list_elem_of_fmap in Hin as (k & Hk & Hin).
      apply list_elem_of_lookup in Hin as [j Hj].
      rewrite list_lookup_alter in Hj. case_decide as Hj'.
      * subst j. rewrite Hx in Hj. simpl in Hj. injection Hj as <-. simpl in Hk.
        rewrite <-Hk in Hpre.
        assert (m.2 = t) as Heq.
        { apply Htt; [by apply target_in_targets| |done].
          by apply (target_in_targets tbl (s, t)). }
        apply Hs. destruct m as [s' t']. simpl in *. subst t'.
        by eapply same_target_same_source.
      * apply Hfree. apply list_elem_of_fmap. exists k. split; [done|].
        by eapply list_elem_of_lookup_2.
Qed.

Lemma key_done_sweep tbl t i dat keys ms :
  table_ok tbl → t ∈ targets tbl → Forall (λ m, m ∈ tbl) ms →
  key_done t i dat keys → key_done t i dat (foldl host_apply_entry keys ms).
Proof.
  intros Hok Ht Hms. revert keys.
  induction Hms as [|m ms Hm Hms IH]; intros keys Hd; [done|].
  simpl. apply IH. by apply (key_done_frame tbl).
Qed.

(** After the turns of a list of entries a pending key is done, unless its
    source was not among them. *)
Lemma key_pending_sweep tbl s t i dat keys ms :
  table_host_ok tbl → (s, t) ∈ tbl → Forall (λ m, m ∈ tbl) ms →
  key_pending s t i dat keys →
  key_done t i dat (foldl host_apply_entry keys ms) ∨
  (key_pending s t i dat (foldl host_apply_entry keys ms) ∧ s ∉ sources ms).
Proof.
  intros Hh Hst Hms. revert keys.
  induction Hms as [|m ms Hm Hms IH]; intros keys Hk; simpl.
  - right. split; [done|]. unfold sources. apply not_elem_of_nil.
  - destruct (key_pending_step tbl s t i dat keys m Hh Hst Hm Hk) as [Hyes Hno].
    destruct (decide (m.1 = s)) as [Hs|Hs].
    + left. destruct Hh as [Hok _]. apply (key_done_sweep tbl); [done| |done|by apply Hyes].
      by apply (target_in_targets tbl (s, t)).
    + destruct (IH _ (Hno Hs)) as [Hd|[Hp Hns]]; [by left|].
      right. split; [done|]. unfold sources in *. simpl.
      rewrite not_elem_of_cons. split; [congruence|done].
Qed.

(** ** The loop under the host's rule *)

Lemma rename_entry_host_objects d st m : objects (rename_entry_host d st m) = objects st.
Proof.
  unfold rename_entry_host. destruct (key_blocks st !! d); [|done]. by case_decide.
Qed.

Lemma rename_entry_host_table d st m : table (rename_entry_host d st m) = table st.
Proof.
  unfold rename_entry_host. destruct (key_blocks st !! d); [|done]. by case_decide.
Qed.

Lemma rename_entry_host_absent d st m :
  key_blocks st !! d = None → rename_entry_host d st m = st.
Proof. unfold rename_entry_host. by intros ->. Qed.

Lemma rename_entry_host_blocks d st m keys :
  key_blocks st !! d = Some keys →
  key_blocks (rename_entry_host d st m) = <[d := host_apply_entry keys m]> (key_blocks st).
Proof.
  intros Hd. unfold rename_entry_host, host_apply_entry. rewrite Hd. simpl.
  case_decide; simpl; [done|]. by rewrite insert_id.
Qed.

Lemma touch_host_objects st d : objects (touch_host st d) = objects st.
Proof.
  unfold touch_host. generalize (table st). intros ms. revert st.
  induction ms as [|m ms IH]; intros st; simpl; [done|].
  by rewrite IH, rename_entry_host_objects.
Qed.

Lemma touch_host_table st d : table (touch_host st d) = table st.
Proof.
  unfold touch_host. generalize (table st) at 1. intros ms. revert st.
  induction ms as [|m ms IH]; intros st; simpl; [done|].
  by rewrite IH, rename_entry_host_table.
Qed.

Lemma touch_host_absent st d : key_blocks st !! d = None → touch_host st d = st.
Proof.
  intros Hd. unfold touch_host. induction (table st) as [|m ms IH]; simpl; [done|].
  by rewrite rename_entry_host_absent.
Qed.

Lemma touch_host_blocks st d keys :
  key_blocks st !! d = Some keys →
  key_blocks (touch_host st d)
  = <[d := foldl host_apply_entry keys (table st)]> (key_blocks st).
Proof.
  unfold touch_host. generalize (table st). intros ms. revert st keys.
  induction ms as [|m ms IH]; intros st keys Hd; simpl.
  - by rewrite insert_id.
  - rewrite (IH _ (host_apply_entry keys m)).
    + rewrite (rename_entry_host_blocks _ _ _ keys Hd). by rewrite insert_insert_eq.
    + rewrite (rename_entry_host_blocks _ _ _ keys Hd). by rewrite lookup_insert_eq.
Qed.

Lemma touch_host_other st d d' :
  d' ≠ d → key_blocks (touch_host st d') !! d = key_blocks st !! d.
Proof.
  intros Hne. destruct (key_blocks st !! d') as [keys|] eqn:Hd'.
  - rewrite (touch_host_blocks _ _ keys Hd'). by rewrite lookup_insert_ne.
  - by rewrite touch_host_absent.
Qed.

Lemma visit_host_touch st x :
  visit_host st x =
    match objects st !! x ≫= ob_data with
    | Some d => touch_host st d
    | None => st
    end.
Proof.
  unfold visit_host, hasShapekeys.
  destruct (objects st !! x) as [o|]; simpl; [|done].
  destruct (ob_data o) as [d|]; [|done].
  case_bool_decide as Hd; [done|].
  rewrite touch_host_absent; [done|].
  destruct (key_blocks st !! d) eqn:E; [|done]. destruct Hd. by eexists.
Qed.

Lemma visit_host_objects st x : objects (visit_host st x) = objects st.
Proof.
  rewrite visit_host_touch. destruct (objects st !! x ≫= ob_data); [|done].
  apply touch_host_objects.
Qed.

Lemma foldl_visit_host_objects st xs : objects (foldl visit_host st xs) = objects st.
Proof.
  revert st. induction xs as [|x xs IH]; intros st; simpl; [done|].
  by rewrite IH, visit_host_objects.
Qed.

Lemma foldl_visit_host_touch st xs :
  foldl visit_host st xs = foldl touch_host st (datas (objects st) xs).
Proof.
  revert st. induction xs as [|x xs IH]; intros st; [done|].
  simpl. rewrite IH, visit_host_objects, visit_host_touch. unfold datas. simpl.
  by destruct (objects st !! x ≫= ob_data).
Qed.

Lemma rename_loop_host_flat fuel st :
  rename_loop_host fuel st
  = ls ← mapM (traverse fuel (objects st)) (seq 0 (length (objects st)));
    Some (foldl visit_host st (concat ls)).
Proof.
  unfold rename_loop_host. generalize (seq 0 (length (objects st))).
  intros roots. revert st. induction roots as [|r roots IH]; intros st; [done|].
  simpl. destruct (traverse fuel (objects st) r) as [os|] eqn:Hos; simpl.
  - rewrite IH, foldl_visit_host_objects.
    destruct (mapM _ roots) as [ls|]; simpl; [|done].
    by rewrite foldl_app.
  - clear IH. by induction roots.
Qed.

(** On a hierarchy without cycles the loop ends in the sequence of visits
    of the data blocks of the objects it meets. *)
Lemma rename_loop_host_run rank fuel st :
  ranked rank (objects st) → deep_enough rank (objects st) fuel →
  ∃ ds,
    rename_loop_host fuel st = Some (foldl touch_host st ds) ∧
    ∀ d, d ∈ ds ↔ d ∈ datas (objects st) (seq 0 (length (objects st))).
Proof.
  intros Hr Hfuel. rewrite rename_loop_host_flat.
  destruct (mapM_is_Some_2 (traverse fuel (objects st))
              (seq 0 (length (objects st)))) as [ls Hls].
  { apply Forall_forall. intros x Hx. apply (traverse_total rank); [done|].
    apply Hfuel. apply elem_of_seq in Hx. lia. }
  rewrite Hls. simpl. exists (datas (objects st) (concat ls)).
  split; [by rewrite foldl_visit_host_touch|].
  intros d. by eapply datas_traversals.
Qed.

Lemma foldl_touch_host_objects st ds : objects (foldl touch_host st ds) = objects st.
Proof.
  revert st. induction ds as [|d ds IH]; intros st; simpl; [done|].
  by rewrite IH, touch_host_objects.
Qed.

Lemma foldl_touch_host_table st ds : table (foldl touch_host st ds) = table st.
Proof.
  revert st. induction ds as [|d ds IH]; intros st; simpl; [done|].
  by rewrite IH, touch_host_table.
Qed.

Lemma turn_closed_sweep tbl R keys ms :
  turn_closed tbl R → Forall (λ m, m ∈ tbl) ms → R keys →
  R (foldl host_apply_entry keys ms).
Proof.
  intros Hc Hms. revert keys. induction Hms as [|m ms Hm Hms IH]; intros keys HR;
    [done|].
  simpl. apply IH. by apply Hc.
Qed.

(** What every turn keeps on a block, the visits keep on it. *)
Lemma foldl_touch_host_keeps tbl R st ds d :
  table st = tbl → turn_closed tbl R →
  block_sat R st d → block_sat R (foldl touch_host st ds) d.
Proof.
  intros Ht Hc. revert st Ht. induction ds as [|d' ds IH]; intros st Ht HR; [done|].
  simpl. apply IH; [by rewrite touch_host_table|].
  destruct HR as (keys & Hd & HR). destruct (decide (d' = d)) as [->|Hne].
  - exists (foldl host_apply_entry keys (table st)).
    rewrite (touch_host_blocks _ _ keys Hd), lookup_insert_eq. split; [done|].
    apply (turn_closed_sweep tbl); [done| |done]. rewrite Ht. by apply Forall_forall.
  - exists keys. by rewrite touch_host_other.
Qed.

(** What a whole sweep of the table brings about on a block, and every turn
    then keeps, holds once the block has been visited. *)
Lemma foldl_touch_host_reaches tbl P Q st ds d :
  table st = tbl → turn_closed tbl P → turn_closed tbl Q →
  (∀ keys, P keys → Q (foldl host_apply_entry keys tbl)) →
  d ∈ ds → block_sat P st d → block_sat Q (foldl touch_host st ds) d.
Proof.
  intros Ht HP HQ Hsweep. revert st Ht.
  induction ds as [|d' ds IH]; intros st Ht Hin Hsat.
  { by apply elem_of_nil in Hin. }
  simpl. destruct (decide (d' = d)) as [->|Hne].
  - apply (foldl_touch_host_keeps tbl); [by rewrite touch_host_table|done|].
    destruct Hsat as (keys & Hd & HPk).
    exists (foldl host_apply_entry keys (table st)).
    rewrite (touch_host_blocks _ _ keys Hd), lookup_insert_eq. split; [done|].
    rewrite Ht. by apply Hsweep.
  - apply elem_of_cons in Hin as [->|Hin]; [done|].
    apply IH; [by rewrite touch_host_table|done|].
    destruct Hsat as (keys & Hd & HPk). exists keys. by rewrite touch_host_other.
Qed.

(** Whatever every turn of the loop keeps of the state, the visits keep. *)
Lemma foldl_touch_host_invariant (P : State → Prop) tbl st ds :
  table st = tbl →
  (∀ d s m, m ∈ tbl → P s → P (rename_entry_host d s m)) →
  P st → P (foldl touch_host st ds).
Proof.
  intros Ht Hstep. revert st Ht. induction ds as [|d ds IH]; intros st Ht HP; [done|].
  simpl. apply IH; [by rewrite touch_host_table|].
  unfold touch_host. rewrite Ht.
  assert (Forall (λ m, m ∈ tbl) tbl) as Hall by (by apply Forall_forall).
  revert Hall. generalize tbl at 2 3. intros ms Hms. clear Ht. revert st HP.
  induction Hms as [|m ms Hm Hms IHms]; intros st HP; [done|].
  simpl. apply IHms. by apply Hstep.
Qed.

Lemma shapekeyMap_host_ok : table_host_ok shapekeyMap.
Proof.
  split_and!.
  - apply shapekeyMap_ok.
  - apply shapekeyMap_sources_NoDup.
  - apply (bool_decide_unpack _). by vm_compute.
  - assert (Forall (λ t, Forall (λ s, String.prefix t s = false) (sources shapekeyMap))
              (targets shapekeyMap)) as H.
    { apply (bool_decide_unpack _). by vm_compute. }
    intros t s Ht Hs. rewrite Forall_forall in H. specialize (H t Ht).
    rewrite Forall_forall in H. by apply H.
  - assert (Forall (λ t, Forall (λ t', String.prefix t t' = true → t = t')
                           (targets shapekeyMap)) (targets shapekeyMap)) as H.
    { apply (bool_decide_unpack _). by vm_compute. }
    intros t t' Ht Ht'. rewrite Forall_forall in H. specialize (H t Ht).
    rewrite Forall_forall in H. by apply H.
Qed.

(** ** The rename pass under the host's rule *)

Lemma pending_or_done_closed s t i dat :
  (s, t) ∈ shapekeyMap →
  turn_closed shapekeyMap (λ ks, key_pending s t i dat ks ∨ key_done t i dat ks).
Proof.
  intros Hst keys m Hm [Hp|Hd].
  - destruct (key_pending_step shapekeyMap s t i dat keys m
                shapekeyMap_host_ok Hst Hm Hp) as [Hyes Hno].
    destruct (decide (m.1 = s)); [right|left]; by eauto.
  - right. apply (key_done_frame shapekeyMap); [apply shapekeyMap_ok|done| |done].
    by apply (target_in_targets shapekeyMap (s, t)).
Qed.

Lemma done_closed s t i dat :
  (s, t) ∈ shapekeyMap → turn_closed shapekeyMap (key_done t i dat).
Proof.
  intros Hst keys m Hm Hd.
  apply (key_done_frame shapekeyMap); [apply shapekeyMap_ok|done| |done].
  by apply (target_in_targets shapekeyMap (s, t)).
Qed.

Lemma pending_or_done_sweep s t i dat keys :
  (s, t) ∈ shapekeyMap →
  key_pending s t i dat keys ∨ key_done t i dat keys →
  key_done t i dat (foldl host_apply_entry keys shapekeyMap).
Proof.
  intros Hst [Hp|Hd].
  - destruct (key_pending_sweep shapekeyMap s t i dat keys shapekeyMap
                shapekeyMap_host_ok Hst) as [Hd|[_ Hn]];
      [by apply Forall_forall|done|done|].
    destruct Hn. by apply (source_in_sources shapekeyMap (s, t)).
  - apply (key_done_sweep shapekeyMap);
      [apply shapekeyMap_ok| |by apply Forall_forall|done].
    by apply (target_in_targets shapekeyMap (s, t)).
Qed.

(** A key that bears a source name, alone in its block to bear it, and whose
    target no key of the block bears, has the target name once its block has
    been visited. *)
Lemma foldl_touch_host_renames st ds d keys i s t dat :
  table st = shapekeyMap →
  key_blocks st !! d = Some keys → NoDup (sk_name <$> keys) →
  keys !! i = Some (mkShapeKey s dat) → (s, t) ∈ shapekeyMap →
  t ∉ sk_name <$> keys → d ∈ ds →
  block_sat (key_done t i dat) (foldl touch_host st ds) d.
Proof.
  intros Ht Hd Hnd Hi Hst Hfree Hin.
  apply (foldl_touch_host_reaches shapekeyMap
           (λ ks, key_pending s t i dat ks ∨ key_done t i dat ks)); try done.
  - by apply pending_or_done_closed.
  - by eapply done_closed.
  - intros ks. by apply pending_or_done_sweep.
  - exists keys. split; [done|]. left. split_and!; [done| |done].
    by apply (unique_once shapekeyMap keys Hnd s), (source_in_sources shapekeyMap (s, t)).
Qed.

(** C1.  After the rename pass as the host carries it out, whatever object
    of the scene one takes (a root or a descendant of one) that carries
    shape keys, each of its keys whose name was one of the 15 source names
    and whose target name no key of its block bore bears that target name,
    with the data it had.  The pass ends on every hierarchy without cycles;
    key names are distinct within a block, as the host keeps them. *)
Theorem host_rename_pass_renames_free_sources rank fuel st :
  table st = shapekeyMap →
  unique_key_names (key_blocks st) →
  ranked rank (objects st) → deep_enough rank (objects st) fuel →
  ∃ st',
    rename_shape_keys_host fuel st = Some st' ∧
    objects st' = objects st ∧
    ∀ x o d keys,
      objects st !! x = Some o → ob_data o = Some d →
      key_blocks st !! d = Some keys →
      ∃ keys',
        key_blocks st' !! d = Some keys' ∧
        length keys' = length keys ∧
        ∀ i k s t,
          keys !! i = Some k → sk_name k = s → (s, t) ∈ shapekeyMap →
          t ∉ sk_name <$> keys →
          ∃ k', keys' !! i = Some k' ∧ sk_name k' = t ∧ sk_data k' = sk_data k.
Proof.
  intros Ht Hu Hr Hfuel. unfold rename_shape_keys_host.
  destruct (rename_loop_host_run rank fuel (with_processed 0 st))
    as (ds & Hrun & Hds); [done|done|].
  rewrite Hrun. simpl. eexists. split; [done|]. simpl.
  split; [by rewrite foldl_touch_host_objects|].
  intros x o d keys Ho Hd Hkeys.
  assert (d ∈ ds) as Hin by (apply Hds; by eapply datas_object).
  destruct (foldl_touch_host_keeps shapekeyMap (λ ks, length ks = length keys)
              (with_processed 0 st) ds d) as (keys' & Hkeys' & Hlen); [done| |by exists keys|].
  { intros ks m _ <-. apply host_apply_entry_length. }
  exists keys'. split_and!; [done|done|].
  intros i [s0 dat] s t Hi Hs Hst Hfree. simpl in Hs. subst s0.
  destruct (foldl_touch_host_renames (with_processed 0 st) ds d keys i s t dat)
    as (keys'' & Hkeys'' & Hdone); try done; [by eapply Hu|].
  rewrite Hkeys' in Hkeys''. injection Hkeys'' as <-.
  by exists (mkShapeKey t dat).
Qed.

Lemma host_rename_pass_renames_free_sources_demo :
  ∃ st',
    rename_shape_keys_host 2 demo = Some st' ∧
    key_blocks st' !! 7%nat
    = Some [ mkShapeKey "Basis" [0]; mkShapeKey "viseme_aa" [1; 2];
             mkShapeKey "viseme_E" [3]; mkShapeKey "blink" [4] ].
Proof.
  destruct (host_rename_pass_renames_free_sources demo_rank 2 demo)
    as (st' & Hrun & _ & _);
    [reflexivity|apply demo_unique_keys|by apply demo_ranked|apply demo_deep|].
  exists st'. split; [exact Hrun|].
  vm_compute in Hrun. injection Hrun as <-. reflexivity.
Defined.

(** The claim C1 as it was stated fails: on the sample rig whose first mesh
    has the keys Basis, viseme_aa, aa, blink, the key named "aa", a source
    name, is not named "viseme_aa" after the pass; the host names it
    "viseme_aa.001". *)
Lemma host_rename_pass_collision :
  objects demo_collide !! 1%nat = Some (mkObject "Head" [] (Some 7%nat)) ∧
  key_blocks demo_collide !! 7%nat
  = Some [ mkShapeKey "Basis" [0]; mkShapeKey "viseme_aa" [6];
           mkShapeKey "aa" [1; 2]; mkShapeKey "blink" [4] ] ∧
  ("aa", "viseme_aa") ∈ shapekeyMap ∧
  ∃ st' keys' k',
    rename_shape_keys_host 2 demo_collide = Some st' ∧
    key_blocks st' !! 7%nat = Some keys' ∧
    keys' !! 2%nat = Some k' ∧
    sk_name k' = "viseme_aa.001" ∧ sk_name k' ≠ "viseme_aa".
Proof.
  split_and!; [reflexivity|reflexivity|apply (bool_decide_unpack _); by vm_compute|].
  destruct (rename_shape_keys_host 2 demo_collide) as [st'|] eqn:Hrun;
    [|by vm_compute in Hrun].
  exists st'. vm_compute in Hrun. injection Hrun as <-.
  eexists _, _. split_and!; [reflexivity|reflexivity|reflexivity|reflexivity|done].
Qed.

(** C3.  For every mesh object of the scene that carries a shape key named
    "aa" and none named "viseme_aa", after the rename pass as the host
    carries it out that same key (same place, same data) is named
    "viseme_aa"; and every shape key whose name is not one of the 15 source
    names is after the pass what it was before, name and data. *)
Theorem host_rename_pass_aa_and_frame rank fuel st :
  table st = shapekeyMap →
  unique_key_names (key_blocks st) →
  ranked rank (objects st) → deep_enough rank (objects st) fuel →
  ∃ st',
    rename_shape_keys_host fuel st = Some st' ∧
    (∀ x o d keys i k,
       objects st !! x = Some o → ob_data o = Some d →
       key_blocks st !! d = Some keys →
       keys !! i = Some k → sk_name k = "aa" →
       "viseme_aa" ∉ sk_name <$> keys →
       ∃ keys' k',
         key_blocks st' !! d = Some keys' ∧ keys' !! i = Some k' ∧
         sk_name k' = "viseme_aa" ∧ sk_data k' = sk_data k) ∧
    (∀ d keys j k,
       key_blocks st !! d = Some keys →
       keys !! j = Some k → sk_name k ∉ sources shapekeyMap →
       ∃ keys', key_blocks st' !! d = Some keys' ∧ keys' !! j = Some k).
Proof.
  intros Ht Hu Hr Hfuel. unfold rename_shape_keys_host.
  destruct (rename_loop_host_run rank fuel (with_processed 0 st))
    as (ds & Hrun & Hds); [done|done|].
  rewrite Hrun. simpl. eexists. split; [done|]. simpl. split.
  - intros x o d keys i [s0 dat] Ho Hd Hkeys Hi Hs Hfree. simpl in Hs. subst s0.
    assert (d ∈ ds) as Hin by (apply Hds; by eapply datas_object).
    destruct (foldl_touch_host_renames (with_processed 0 st) ds d keys i
                "aa" "viseme_aa" dat)
      as (keys' & Hkeys' & Hdone); try done; [by eapply Hu| |].
    { apply (bool_decide_unpack _). by vm_compute. }
    by exists keys', (mkShapeKey "viseme_aa" dat).
  - intros d keys j k Hkeys Hj Hk.
    apply (foldl_touch_host_keeps shapekeyMap (λ ks, ks !! j = Some k)
             (with_processed 0 st) ds d); [done| |by exists keys].
    intros ks m Hm Hks. by apply (host_apply_entry_frame shapekeyMap).
Qed.

Lemma host_rename_pass_aa_and_frame_demo :
  ∃ st' keys',
    rename_shape_keys_host 2 demo = Some st' ∧
    key_blocks st' !! 7%nat = Some keys' ∧
    keys' !! 1%nat = Some (mkShapeKey "viseme_aa" [1; 2]) ∧
    keys' !! 3%nat = Some (mkShapeKey "blink" [4]).
Proof.
  destruct (host_rename_pass_aa_and_frame demo_rank 2 demo)
    as (st' & Hrun & Haa & Hframe);
    [reflexivity|apply demo_unique_keys|by apply demo_ranked|apply demo_deep|].
  destruct (Haa 1%nat (mkObject "Head" [] (Some 7%nat)) 7%nat
              [ mkShapeKey "Basis" [0]; mkShapeKey "aa" [1; 2];
                mkShapeKey "E" [3]; mkShapeKey "blink" [4] ]
              1%nat (mkShapeKey "aa" [1; 2]))
    as (keys' & k' & Hkeys' & Hk' & Hname & Hdata); try reflexivity.
  { apply (bool_decide_unpack _). by vm_compute. }
  destruct (Hframe 7%nat
              [ mkShapeKey "Basis" [0]; mkShapeKey "aa" [1; 2];
                mkShapeKey "E" [3]; mkShapeKey "blink" [4] ]
              3%nat (mkShapeKey "blink" [4]))
    as (keys'' & Hkeys'' & Hk''); try reflexivity.
  { apply (bool_decide_unpack _). by vm_compute. }
  exists st', keys'. split_and!; [exact Hrun|exact Hkeys'| |].
  - rewrite Hk'. destruct k' as [n dat]. simpl in Hname, Hdata. by subst.
  - rewrite Hkeys' in Hkeys''. by injection Hkeys'' as <-.
Defined.

(** The claim C3 as it was stated fails: the mesh of the sample rig below
    carries a key named "aa", and after the pass that key is not named
    "viseme_aa", the name being taken by another key of the mesh. *)
Lemma host_aa_collision :
  ∃ o keys k,
    objects demo_collide !! 1%nat = Some o ∧ ob_data o = Some 7%nat ∧
    key_blocks demo_collide !! 7%nat = Some keys ∧
    keys !! 2%nat = Some k ∧ sk_name k = "aa" ∧
    ∃ st' keys' k',
      rename_shape_keys_host 2 demo_collide = Some st' ∧
      key_blocks st' !! 7%nat = Some keys' ∧
      keys' !! 2%nat = Some k' ∧
      sk_data k' = sk_data k ∧ sk_name k' ≠ "viseme_aa".
Proof.
  eexists _, _, _.
  split_and!; [reflexivity|reflexivity|reflexivity|reflexivity|reflexivity|].
  destruct (rename_shape_keys_host 2 demo_collide) as [st'|] eqn:Hrun;
    [|by vm_compute in Hrun].
  exists st'. vm_compute in Hrun. injection Hrun as <-.
  eexists _, _. split_and!; [reflexivity|reflexivity|reflexivity|reflexivity|done].
Qed.

(** Where the target is free the host's turn is the turn of the plain
    assignment. *)
Lemma host_apply_entry_free keys m :
  m.2 ∉ sk_name <$> keys → host_apply_entry keys m = apply_entry keys m.
Proof.
  intros Hfree. unfold host_apply_entry, apply_entry, host_set_key_name.
  case_decide; [|done]. rewrite host_unique_name_free; [done|].
  intros Hin. apply Hfree. apply list_elem_of_fmap in Hin as (k & -> & Hk).
  apply list_elem_of_fmap. exists k. split; [done|]. by eapply list_elem_of_delete_inv.
Qed.

Lemma rename_entry_host_evolved tbl kb0 d st m :
  table_host_ok tbl → m ∈ tbl →
  blocks_evolved_host tbl kb0 (key_blocks st) →
  blocks_evolved_host tbl kb0 (key_blocks (rename_entry_host d st m)).
Proof.
  intros (Hok & Hns & Hnt & Hts & Htt) Hm Hev.
  destruct (key_blocks st !! d) as [keys|] eqn:Hd;
    [|by rewrite rename_entry_host_absent].
  rewrite (rename_entry_host_blocks _ _ _ keys Hd). intros d'. specialize (Hev d').
  destruct (decide (d = d')) as [<-|Hne]; [|by rewrite lookup_insert_ne].
  rewrite lookup_insert_eq. rewrite Hd in Hev.
  destruct (kb0 !! d) as [keys0|]; [|done].
  destruct (host_apply_entry_cases keys m) as [[_ ->]|(idx & x & _ & Hx & Hnm & ->)];
    [done|].
  apply Forall2_alter_r; [done|]. intros k0 y _ Hy [Hdata Hname].
  rewrite Hx in Hy. injection Hy as <-. split; [done|]. simpl. right.
  destruct Hname as [Hname|(t & Ht & Hpre)].
  - exists m.2. split; [|apply host_unique_name_prefix].
    rewrite <-Hname, Hnm. by destruct m.
  - rewrite Hnm in Hpre. rewrite (Hts t m.1) in Hpre; [done| |].
    + by apply (target_in_targets tbl (sk_name k0, t)).
    + by apply source_in_sources.
Qed.

(** X3.  Whatever the names of the keys, the rename pass as the host
    carries it out adds and removes neither data blocks nor keys, leaves
    the objects and the data of every key alone, and leaves every key under
    its own name or under a name that begins with the target the table
    pairs with that name (the target itself, or the target with the host's
    suffix). *)
Theorem host_rename_pass_keeps_structure rank fuel st :
  table st = shapekeyMap →
  ranked rank (objects st) → deep_enough rank (objects st) fuel →
  ∃ st',
    rename_shape_keys_host fuel st = Some st' ∧
    objects st' = objects st ∧
    dom (key_blocks st') = dom (key_blocks st) ∧
    ∀ d keys,
      key_blocks st !! d = Some keys →
      ∃ keys',
        key_blocks st' !! d = Some keys' ∧
        length keys' = length keys ∧
        ∀ i k,
          keys !! i = Some k →
          ∃ k', keys' !! i = Some k' ∧ sk_data k' = sk_data k ∧
                (sk_name k' = sk_name k ∨
                 ∃ t, (sk_name k, t) ∈ shapekeyMap ∧
                      String.prefix t (sk_name k') = true).
Proof.
  intros Ht Hr Hfuel. unfold rename_shape_keys_host.
  destruct (rename_loop_host_run rank fuel (with_processed 0 st))
    as (ds & Hrun & _); [done|done|].
  rewrite Hrun. simpl. eexists. split; [done|]. simpl.
  assert (blocks_evolved_host shapekeyMap (key_blocks st)
            (key_blocks (foldl touch_host (with_processed 0 st) ds))) as Hev.
  { apply (foldl_touch_host_invariant
             (λ s, blocks_evolved_host shapekeyMap (key_blocks st) (key_blocks s))
             shapekeyMap); [done| |].
    - intros d s m Hm. apply rename_entry_host_evolved; [apply shapekeyMap_host_ok|done].
    - intros d. simpl. destruct (key_blocks st !! d) as [keys|]; [|done].
      apply Forall_Forall2_diag, Forall_forall. intros k _. split; [done|by left]. }
  split_and!.
  - by rewrite foldl_touch_host_objects.
  - apply set_eq. intros d. rewrite !elem_of_dom. specialize (Hev d).
    destruct (key_blocks st !! d),
      (key_blocks (foldl touch_host (with_processed 0 st) ds) !! d); try done;
      split; intros [? ?]; by eauto.
  - intros d keys Hd. specialize (Hev d). rewrite Hd in Hev.
    destruct (key_blocks (foldl touch_host (with_processed 0 st) ds) !! d)
      as [keys'|]; [|done].
    exists keys'. split_and!; [done|symmetry; by eapply Forall2_length|].
    intros i k Hk.
    destruct (Forall2_lookup_l _ _ _ _ _ Hev Hk) as (k' & Hk' & Hdata & Hname).
    by exists k'.
Qed.

Lemma host_rename_pass_keeps_structure_demo :
  ∃ st',
    rename_shape_keys_host 2 demo_collide = Some st' ∧
    objects st' = objects demo_collide ∧
    dom (key_blocks st') = dom (key_blocks demo_collide).
Proof.
  destruct (host_rename_pass_keeps_structure demo_rank 2 demo_collide)
    as (st' & Hrun & Hobj & Hdom & _);
    [reflexivity|by apply demo_ranked|apply demo_deep|].
  exists st'. split_and!; [exact Hrun|exact Hobj|exact Hdom].
Defined.

(** ** The root and the transform step under the host's rules *)

Lemma elem_of_delete_lookup {A} (l : list A) i x :
  x ∈ delete i l → ∃ j, j ≠ i ∧ l !! j = Some x.
Proof.
  intros [j Hj]%list_elem_of_lookup. rewrite list_lookup_delete in Hj.
  case_decide; [exists j|exists (S j)]; split; [lia|done|lia|done].
Qed.

Lemma rename_root_host_absent outside st :
  "AvatarRoot" ∉ ob_name <$> objects st → rename_root_host outside st = st.
Proof.
  intros Hn. apply find_not_found in Hn. unfold rename_root_host.
  rewrite decide_False; [done|]. by intros [].
Qed.

(** Where "Armature" is free the host's step is the step of the plain
    assignment. *)
Lemma rename_root_host_free outside st :
  "Armature" ∉ ob_name <$> objects st → "Armature" ∉ outside →
  rename_root_host outside st = rename_root st.
Proof.
  intros Hn Hout. unfold rename_root_host, rename_root. case_decide; [|done].
  rewrite host_unique_name_free; [done|].
  intros [Hin|Hin]%elem_of_app; [|done]. apply Hn.
  apply list_elem_of_fmap in Hin as (o & -> & Ho).
  apply list_elem_of_fmap. exists o. split; [done|]. by eapply list_elem_of_delete_inv.
Qed.




(** After the rename of a root there is an object named "Armature", in the
    scene or outside of it. *)
Lemma rename_root_host_armature outside st :
  "AvatarRoot" ∈ ob_name <$> objects st →
  "Armature" ∈ ob_name <$> objects (rename_root_host outside st) ∨
  "Armature" ∈ outside.
Proof.
  intros Hin. unfold rename_root_host.
  destruct (decide (find ob_name "AvatarRoot" (objects st) ≠ -1)) as [Hidx|Hidx].
  - destruct (find_found ob_name _ _ Hidx) as (r & Hr & Hnm & _).
    set (i := Z.to_nat (find ob_name "AvatarRoot" (objects st))) in *.
    set (others := ((ob_name <$> delete i (objects st)) ++ outside)%list).
    simpl. destruct (decide ("Armature" ∈ others)) as [Ho|Ho].
    + apply elem_of_app in Ho as [Ho|Ho]; [left|by right].
      apply list_elem_of_fmap in Ho as (o & Hname & Ho).
      apply elem_of_delete_lookup in Ho as (j & Hj & Ho).
      apply list_elem_of_fmap. exists o. split; [done|].
      apply list_elem_of_lookup. exists j. by rewrite list_lookup_alter_ne.
    + left. apply list_elem_of_fmap.
      exists (set_ob_name (host_unique_name others "Armature") r). split.
      * simpl. by rewrite host_unique_name_free.
      * apply list_elem_of_lookup. exists i. by rewrite list_lookup_alter_eq, Hr.
  - destruct (proj1 (find_not_found ob_name "AvatarRoot" (objects st))); [lia|done].
Qed.

Lemma rename_root_host_stdout outside st :
  "AvatarRoot" ∈ ob_name <$> objects st →
  stdout (rename_root_host outside st)
  = (stdout st ++ ["✅ Renamed AvatarRoot to Armature"])%list.
Proof.
  intros Hin. unfold rename_root_host. rewrite decide_True; [done|].
  intros Hidx. by apply find_not_found in Hidx.
Qed.

(** X9.  Whenever the root is renamed the transform step is entered next:
    if an object is named "AvatarRoot", the two steps either print their two
    lines, in this order, or print the first and end the script on an
    uncaught RuntimeError.  If no object is named "AvatarRoot" and none of
    [bpy.data.objects] is named "Armature", the two steps do nothing at all;
    with an "Armature" outside of the scene only, line 57 raises and nothing
    is printed. *)
Theorem root_then_transforms_host bl st :
  ("AvatarRoot" ∈ ob_name <$> objects st →
   ∃ st1 exc,
     apply_transforms_host bl (rename_root_host (bl_outside bl) st) = (st1, exc) ∧
     ((exc = Some "RuntimeError" ∧
       stdout st1 = (stdout st ++ ["✅ Renamed AvatarRoot to Armature"])%list) ∨
      (exc = None ∧
       stdout st1 = (stdout st ++ ["✅ Renamed AvatarRoot to Armature";
                                   "✅ Applied transforms to Armature"])%list))) ∧
  ("AvatarRoot" ∉ ob_name <$> objects st →
   "Armature" ∉ ob_name <$> objects st → "Armature" ∉ bl_outside bl →
   apply_transforms_host bl (rename_root_host (bl_outside bl) st) = (st, None)) ∧
  ("AvatarRoot" ∉ ob_name <$> objects st →
   "Armature" ∉ ob_name <$> objects st → "Armature" ∈ bl_outside bl →
   apply_transforms_host bl (rename_root_host (bl_outside bl) st)
   = (st, Some "RuntimeError")).
Proof.
  split_and!.
  - intros Hin.
    pose proof (rename_root_host_armature (bl_outside bl) st Hin) as Harm.
    pose proof (rename_root_host_stdout (bl_outside bl) st Hin) as Hout.
    unfold apply_transforms_host.
    destruct (bool_decide ("Armature" ∈ ob_name <$>
                objects (rename_root_host (bl_outside bl) st))) eqn:Hscene.
    + destruct (bl_transform_apply bl _) as [e|sc].
      * eexists _, _. split; [done|]. by left.
      * eexists _, _. split; [done|]. right. split; [done|].
        simpl. by rewrite Hout, <-app_assoc.
    + apply bool_decide_eq_false in Hscene. destruct Harm as [Harm|Harm]; [done|].
      rewrite bool_decide_eq_true_2 by done.
      eexists _, _. split; [done|]. by left.
  - intros Hn Harm Hout. rewrite rename_root_host_absent by done.
    unfold apply_transforms_host.
    by rewrite !bool_decide_eq_false_2.
  - intros Hn Harm Hout. rewrite rename_root_host_absent by done.
    unfold apply_transforms_host.
    by rewrite bool_decide_eq_false_2, bool_decide_eq_true_2.
Qed.

Lemma root_then_transforms_host_demo :
  ∃ st1 exc,
    apply_transforms_host demo_blender_raising (rename_root_host [] demo) = (st1, exc) ∧
    ((exc = Some "RuntimeError" ∧
      stdout st1 = ["✅ Renamed AvatarRoot to Armature"]) ∨
     (exc = None ∧
      stdout st1 = ["✅ Renamed AvatarRoot to Armature";
                    "✅ Applied transforms to Armature"])).
Proof.
  apply (proj1 (root_then_transforms_host demo_blender_raising demo)).
  apply (bool_decide_unpack _). by vm_compute.
Defined.

(** X12.  On a scene without any object, the steps between import and
    export rename nothing: when no object of [bpy.data.objects] is named
    "Armature" they print only the count of zero; when one is, outside of
    the scene, they end the script on an uncaught RuntimeError before
    anything is printed. *)
Theorem process_host_empty_scene fuel bl st :
  objects st = [] →
  ("Armature" ∉ bl_outside bl →
   process_host fuel bl st
   = Some (print "✅ Processed 0 shape keys" (with_processed 0 st), None)) ∧
  ("Armature" ∈ bl_outside bl →
   process_host fuel bl st = Some (st, Some "RuntimeError")).
Proof.
  intros Hempty.
  assert (rename_root_host (bl_outside bl) st = st) as Hroot.
  { apply rename_root_host_absent. rewrite Hempty. apply not_elem_of_nil. }
  unfold process_host, apply_transforms_host. rewrite Hroot.
  rewrite (bool_decide_eq_false_2 ("Armature" ∈ ob_name <$> objects st))
    by (rewrite Hempty; apply not_elem_of_nil).
  split; intros Hout.
  - rewrite bool_decide_eq_false_2 by done.
    unfold rename_shape_keys_host, rename_loop_host. simpl. by rewrite Hempty.
  - by rewrite bool_decide_eq_true_2.
Qed.

Lemma process_host_empty_scene_demo :
  process_host 0 demo_blender (mkState [] demo_key_blocks shapekeyMap 7 [])
  = Some (mkState [] demo_key_blocks shapekeyMap 0 ["✅ Processed 0 shape keys"], None).
Proof.
  apply (proj1 (process_host_empty_scene 0 demo_blender
                  (mkState [] demo_key_blocks shapekeyMap 7 []) eq_refl)).
  apply not_elem_of_nil.
Defined.


